(** * ecmarkup: the clause builder (Clause.ts) as a shallow embedding

    The development follows the TypeScript class [Clause]: its constructor,
    [buildStructuredHeader], [buildNotes], [buildExamples], [canHaveEffect]
    and the static [enter] / [exit] handlers, together with the small part of
    the legacy constructor-based builder that numbers clauses.

    JavaScript objects that are shared by reference (clauses held by the
    clause stack, by their parent and by the effect worklist) live in a heap
    indexed by allocation order.  Collaborators whose code is not part of the
    translated sources (header grammar, type grammar, DOM serialisation,
    clause numberer) are section variables. *)

From Stdlib Require Import ZArith.
From stdpp Require Import base option list strings gmap.

Local Open Scope Z_scope.

(** ** JavaScript string primitives used by the builder *)

Module JS.

(** [s.startsWith(p)] *)
Definition startsWith (s p : string) : bool := String.prefix p s.

(** [s.indexOf(p)], with [-1] for a miss. *)
Definition indexOf (s p : string) : Z :=
  match String.index 0 p s with
  | Some i => Z.of_nat i
  | None => -1
  end.

(** [s.includes(p)] *)
Definition includes (s p : string) : bool :=
  match String.index 0 p s with
  | Some _ => true
  | None => false
  end.

Fixpoint lastIndexOf_from (s p : string) (i : nat) (acc : Z) : Z :=
  let acc' := if String.prefix p s then Z.of_nat i else acc in
  match s with
  | EmptyString => acc'
  | String _ s' => lastIndexOf_from s' p (S i) acc'
  end.

(** [s.lastIndexOf(p)], with [-1] for a miss. *)
Definition lastIndexOf (s p : string) : Z := lastIndexOf_from s p 0 (-1).

(** [s.substring(a, b)]: both ends are clamped to [0 .. length] and swapped
    when they come in the wrong order. *)
Definition substring (s : string) (a b : Z) : string :=
  let len := Z.of_nat (String.length s) in
  let clamp x := Z.max 0 (Z.min x len) in
  let lo := Z.min (clamp a) (clamp b) in
  let hi := Z.max (clamp a) (clamp b) in
  String.substring (Z.to_nat lo) (Z.to_nat (hi - lo)) s.

(** [s.substring(a)] *)
Definition substringFrom (s : string) (a : Z) : string :=
  substring s a (Z.of_nat (String.length s)).

(** White space of the 8-bit alphabet: TAB, LF, VT, FF, CR and SPACE. *)
Definition isWhiteSpace (c : Ascii.ascii) : bool :=
  let n := Ascii.nat_of_ascii c in
  ((9 <=? n)%nat && (n <=? 13)%nat) || (n =? 32)%nat.

Fixpoint trimStart (s : string) : string :=
  match s with
  | EmptyString => EmptyString
  | String c s' => if isWhiteSpace c then trimStart s' else s
  end.

Fixpoint trimEnd (s : string) : string :=
  match s with
  | EmptyString => EmptyString
  | String c s' =>
      match trimEnd s' with
      | EmptyString => if isWhiteSpace c then EmptyString else String c EmptyString
      | r => String c r
      end
  end.

(** [s.trim()] *)
Definition trim (s : string) : string := trimEnd (trimStart s).

(** [xs.join(sep)]; an [undefined] element prints as the empty string. *)
Definition join (sep : string) (xs : list (option string)) : string :=
  String.concat sep (map (default EmptyString) xs).

(** Truthiness of a [string | null] value. *)
Definition truthy (o : option string) : bool :=
  match o with
  | Some (String _ _) => true
  | _ => false
  end.

End JS.

(** ** The document tree

    An element carries its tag name (upper case, as [nodeName] and [tagName]
    report it for HTML elements), its attributes in document order and its
    child nodes. *)

#[warnings="-register-all"]
Inductive DomNode : Type :=
| TextNode (data : string)
| Elem (tagName : string) (attributes : list (string * string))
       (childNodes : list DomNode).

Definition nodeName (n : DomNode) : string :=
  match n with
  | TextNode _ => "#text"
  | Elem t _ _ => t
  end.

Definition attributesOf (n : DomNode) : list (string * string) :=
  match n with
  | TextNode _ => []
  | Elem _ a _ => a
  end.

Definition childNodesOf (n : DomNode) : list DomNode :=
  match n with
  | TextNode _ => []
  | Elem _ _ k => k
  end.

Definition isElement (n : DomNode) : bool :=
  match n with
  | TextNode _ => false
  | Elem _ _ _ => true
  end.

(** [node.children]: the element children. *)
Definition children (n : DomNode) : list DomNode :=
  filter (λ k, isElement k = true) (childNodesOf n).

Fixpoint lookupAttr (k : string) (a : list (string * string)) : option string :=
  match a with
  | [] => None
  | (k', v) :: a' => if String.eqb k' k then Some v else lookupAttr k a'
  end.

(** [node.getAttribute(k)] *)
Definition getAttribute (n : DomNode) (k : string) : option string :=
  lookupAttr k (attributesOf n).

(** [node.hasAttribute(k)] *)
Definition hasAttribute (n : DomNode) (k : string) : bool :=
  bool_decide (is_Some (getAttribute n k)).

Fixpoint replaceAttr (k v : string) (a : list (string * string))
  : list (string * string) :=
  match a with
  | [] => [(k, v)]
  | (k', v') :: a' =>
      if String.eqb k' k then (k', v) :: a' else (k', v') :: replaceAttr k v a'
  end.

(** [node.setAttribute(k, v)]: an existing attribute keeps its place, a new
    one goes last. *)
Definition setAttribute (n : DomNode) (k v : string) : DomNode :=
  match n with
  | TextNode d => TextNode d
  | Elem t a c => Elem t (replaceAttr k v a) c
  end.

(** [node.id]: the reflected [id] attribute, empty when absent. *)
Definition nodeId (n : DomNode) : string := default "" (getAttribute n "id").

(** [node.prepend(child)] *)
Definition prepend (n child : DomNode) : DomNode :=
  match n with
  | TextNode d => TextNode d
  | Elem t a c => Elem t a (child :: c)
  end.

(** ** Types and signatures (./Biblio) *)

(** Modelled from the spec: the [Type] declaration of ./Biblio, which is not
    part of the translated sources.  A type is a recursive tagged tree:
    named/primitive, list-of, record, union-of-N or completion wrapper. *)
#[warnings="-register-all"]
Inductive Ty : Type :=
| TyOpaque (name : string)
| TyList (elements : Ty)
| TyRecord (fields : list (string * Ty))
| TyUnion (types : list Ty)
| TyCompletion (typeOfValueIfNormal : option Ty).

(** The [kind] tag of a type. *)
Definition kind (t : Ty) : string :=
  match t with
  | TyOpaque _ => "opaque"
  | TyList _ => "list"
  | TyRecord _ => "record"
  | TyUnion _ => "union"
  | TyCompletion _ => "completion"
  end.

(** One entry of a parameter list ([Parameter] in ./Biblio). *)
Record Param := { p_name : string; p_type : option Ty }.

Record Signature := {
  parameters : list Param;
  optionalParameters : list Param;
  sig_return : option Ty
}.

(** ** Diagnostics *)

Record Warning := {
  w_type : string;
  ruleId : string;
  message : string;
  w_node : option DomNode;
  w_attr : option string;
  nodeRelativeLine : option nat;
  nodeRelativeColumn : option nat
}.

Definition nodeWarning (rule msg : string) (n : option DomNode) : Warning :=
  {| w_type := "node"; ruleId := rule; message := msg; w_node := n;
     w_attr := None; nodeRelativeLine := None; nodeRelativeColumn := None |}.

Definition attrWarning (rule msg : string) (n : DomNode) (a : string) : Warning :=
  {| w_type := "attr"; ruleId := rule; message := msg; w_node := Some n;
     w_attr := Some a; nodeRelativeLine := None; nodeRelativeColumn := None |}.

Definition contentsWarning (rule msg : string) (n : DomNode) (line column : nat)
  : Warning :=
  {| w_type := "contents"; ruleId := rule; message := msg; w_node := Some n;
     w_attr := None; nodeRelativeLine := Some line;
     nodeRelativeColumn := Some column |}.

(** ** Bibliography entries *)

Record ClauseBiblioEntry := {
  ce_id : option string;
  ce_aoid : option string;
  ce_title : option string;
  ce_titleHTML : option string;
  ce_number : string
}.

(** An op entry; its [_node] back-pointer is left out, and [effects] is the
    list as it is when the entry is made. *)
Record OpBiblioEntry := {
  oe_aoid : string;
  oe_refId : option string;
  oe_kind : option string;
  oe_signature : option Signature;
  oe_effects : list string;
  oe_skipReturnChecks : bool;
  oe_skipGlobalChecks : option bool
}.

Inductive PartialBiblioEntry : Type :=
| EntryClause (e : ClauseBiblioEntry)
| EntryOp (e : OpBiblioEntry).

Definition opOf (e : PartialBiblioEntry) : option OpBiblioEntry :=
  match e with
  | EntryOp o => Some o
  | EntryClause _ => None
  end.

Definition clauseOf (e : PartialBiblioEntry) : option ClauseBiblioEntry :=
  match e with
  | EntryClause c => Some c
  | EntryOp _ => None
  end.

(** ** The bibliography registry (./Biblio) *)

(** Modelled from the spec: the registry class of ./Biblio, which is not part
    of the translated sources.  It is a namespace-scoped store; every
    namespace has an optional parent used only for lookups, and keeps its
    entries in insertion order. *)
Record Biblio := {
  b_parent : gmap string string;
  b_entries : gmap string (list PartialBiblioEntry)
}.

Definition emptyBiblio : Biblio := {| b_parent := ∅; b_entries := ∅ |}.

(** The entries directly present in one namespace. *)
Definition entriesOf (b : Biblio) (ns : string) : list PartialBiblioEntry :=
  default [] (b_entries b !! ns).

(** Modelled from the spec: [createNamespace(name, parentName)] registers a
    namespace whose failed lookups fall back to the parent. *)
Definition createNamespace (b : Biblio) (name parent : string) : Biblio :=
  {| b_parent := <[name := parent]> (b_parent b); b_entries := b_entries b |}.

(** Modelled from the spec: [add(entry, namespace)] inserts the entry into
    exactly that namespace, with no propagation to other namespaces. *)
Definition add (b : Biblio) (e : PartialBiblioEntry) (ns : string) : Biblio :=
  {| b_parent := b_parent b;
     b_entries := <[ns := entriesOf b ns ++ [e]]> (b_entries b) |}.

(** Modelled from the spec: [keysForNamespace(namespace)] is the set of aoid
    keys directly present in the namespace. *)
Definition keysForNamespace (b : Biblio) (ns : string) : gset string :=
  list_to_set (oe_aoid <$> omap opOf (entriesOf b ns)).

(** ** [JSON.stringify] on strings *)

Module JSON.

Definition quote : Ascii.ascii := Ascii.ascii_of_nat 34.
Definition backslash : Ascii.ascii := Ascii.ascii_of_nat 92.

Definition hexDigit (n : nat) : Ascii.ascii :=
  Ascii.ascii_of_nat (if (n <? 10)%nat then 48 + n else 87 + n)%nat.

Definition escapeChar (c : Ascii.ascii) : string :=
  let n := Ascii.nat_of_ascii c in
  if (n =? 34)%nat then String backslash (String quote "")
  else if (n =? 92)%nat then String backslash (String backslash "")
  else if (n =? 8)%nat then String backslash "b"
  else if (n =? 12)%nat then String backslash "f"
  else if (n =? 10)%nat then String backslash "n"
  else if (n =? 13)%nat then String backslash "r"
  else if (n =? 9)%nat then String backslash "t"
  else if (n <? 32)%nat then
    String backslash
      ("u00" +:+ String (hexDigit (n / 16)) (String (hexDigit (n mod 16)) ""))
  else String c "".

Fixpoint escape (s : string) : string :=
  match s with
  | EmptyString => EmptyString
  | String c s' => escapeChar c +:+ escape s'
  end.

Definition stringify (s : string) : string :=
  String quote (escape s +:+ String quote "").

End JSON.

(** ** Clauses, the spec and the traversal context *)

(** Notes and examples are built by their own classes; the clause only keeps
    them in declaration order and triggers their [build]. *)
Record Note := { note_id : string }.
Record ExampleBlock := { example_id : string }.

(** A call [x.build(number)] made by the clause; [None] is a call without
    argument. *)
Inductive BuildCall : Type :=
| BuildNote (n : Note) (number : option nat)
| BuildExample (e : ExampleBlock) (number : option nat).

(** A reference to a clause object: its index in the heap. *)
Definition ClauseRef := nat.

(** The fields of a clause.  The back-pointers [spec] and [node] are not
    fields here: the spec is threaded through every call and the node is the
    one of the traversal context. *)
Record Clause := {
  c_id : option string;
  c_namespace : string;
  c_parentClause : option ClauseRef;
  c_header : option DomNode;
  c_title : option string;
  c_titleHTML : option string;
  c_subclauses : list ClauseRef;
  c_number : string;
  c_aoid : option string;
  c_type : option string;
  c_notes : list Note;
  c_editorNotes : list Note;
  c_examples : list ExampleBlock;
  c_effects : list string;
  c_signature : option Signature;
  c_skipGlobalChecks : bool;
  c_skipReturnChecks : bool;
  c_isAnnex : bool;
  c_isBackMatter : bool;
  c_isNormative : bool
}.

(** An entry of [spec._textNodes]. *)
Record TextNodeEntry := {
  tn_node : DomNode;
  tn_clause : ClauseRef;
  tn_inAlg : bool;
  tn_currentId : option string
}.

(** The part of the [Spec] object the clause builder reads and writes.
    [s_warnings] collects the arguments of [spec.warn] and [s_builds] the
    [build] calls, both in call order. *)
Record Spec := {
  s_namespace : string;
  s_biblio : Biblio;
  s_subclauses : list ClauseRef;
  s_textNodes : gmap string (list TextNodeEntry);
  s_effectWorklist : list (string * list ClauseRef);
  s_warnings : list Warning;
  s_builds : list BuildCall
}.

Definition warn (s : Spec) (w : Warning) : Spec :=
  {| s_namespace := s_namespace s; s_biblio := s_biblio s;
     s_subclauses := s_subclauses s; s_textNodes := s_textNodes s;
     s_effectWorklist := s_effectWorklist s;
     s_warnings := s_warnings s ++ [w]; s_builds := s_builds s |}.

Definition warnAll (s : Spec) (ws : list Warning) : Spec :=
  {| s_namespace := s_namespace s; s_biblio := s_biblio s;
     s_subclauses := s_subclauses s; s_textNodes := s_textNodes s;
     s_effectWorklist := s_effectWorklist s;
     s_warnings := s_warnings s ++ ws; s_builds := s_builds s |}.

Definition setBiblio (s : Spec) (b : Biblio) : Spec :=
  {| s_namespace := s_namespace s; s_biblio := b;
     s_subclauses := s_subclauses s; s_textNodes := s_textNodes s;
     s_effectWorklist := s_effectWorklist s;
     s_warnings := s_warnings s; s_builds := s_builds s |}.

Definition setTextNodes (s : Spec) (t : gmap string (list TextNodeEntry)) : Spec :=
  {| s_namespace := s_namespace s; s_biblio := s_biblio s;
     s_subclauses := s_subclauses s; s_textNodes := t;
     s_effectWorklist := s_effectWorklist s;
     s_warnings := s_warnings s; s_builds := s_builds s |}.

Definition setEffectWorklist (s : Spec) (w : list (string * list ClauseRef)) : Spec :=
  {| s_namespace := s_namespace s; s_biblio := s_biblio s;
     s_subclauses := s_subclauses s; s_textNodes := s_textNodes s;
     s_effectWorklist := w;
     s_warnings := s_warnings s; s_builds := s_builds s |}.

Definition pushSubclause (s : Spec) (r : ClauseRef) : Spec :=
  {| s_namespace := s_namespace s; s_biblio := s_biblio s;
     s_subclauses := s_subclauses s ++ [r]; s_textNodes := s_textNodes s;
     s_effectWorklist := s_effectWorklist s;
     s_warnings := s_warnings s; s_builds := s_builds s |}.

Definition logBuilds (s : Spec) (bs : list BuildCall) : Spec :=
  {| s_namespace := s_namespace s; s_biblio := s_biblio s;
     s_subclauses := s_subclauses s; s_textNodes := s_textNodes s;
     s_effectWorklist := s_effectWorklist s;
     s_warnings := s_warnings s; s_builds := s_builds s ++ bs |}.

(** The traversal context handed to [enter] and [exit].  [heap] holds the
    clause objects the references point to; the clause stack grows at its
    end, as a JavaScript array does under [push] and [pop]. *)
Record Ctx {Numberer : Type} := {
  spec : Spec;
  node : DomNode;
  clauseStack : list ClauseRef;
  clauseNumberer : Numberer;
  inAlg : bool;
  currentId : option string;
  heap : list Clause
}.
Arguments Ctx : clear implicits.

(** ** Constants of the module *)

Definition aoidTypes : list string :=
  [ "abstract operation";
    "sdo";
    "syntax-directed operation";
    "host-defined abstract operation";
    "implementation-defined abstract operation";
    "numeric method" ].

Definition SPECIAL_KINDS_MAP : list (string * string) :=
  [ ("normative-optional", "Normative Optional");
    ("legacy", "Legacy");
    ("deprecated", "Deprecated") ].

Definition SPECIAL_KINDS : list string := fst <$> SPECIAL_KINDS_MAP.

(** [SPECIAL_KINDS_MAP.get(k)] *)
Definition SPECIAL_KINDS_MAP_get (k : string) : option string :=
  lookupAttr k SPECIAL_KINDS_MAP.

(** [xs.includes(x)] on an array of strings. *)
Definition arrayIncludes (xs : list string) (x : string) : bool :=
  existsb (String.eqb x) xs.

(** ** Notes, examples and the effect query *)

(** [forEach((x, i) => x.build(i + 1))] from index [i] on. *)
Fixpoint buildNumbered {A : Type} (mk : A → option nat → BuildCall)
    (i : nat) (xs : list A) : list BuildCall :=
  match xs with
  | [] => []
  | x :: xs' => mk x (Some (i + 1)%nat) :: buildNumbered mk (S i) xs'
  end.

Definition buildNotes (c : Clause) : list BuildCall :=
  (match c_notes c with
   | [n] => [BuildNote n None]
   | ns => buildNumbered BuildNote 0 ns
   end)
  ++ ((λ n, BuildNote n None) <$> c_editorNotes c).

Definition buildExamples (c : Clause) : list BuildCall :=
  match c_examples c with
  | [e] => [BuildExample e None]
  | es => buildNumbered BuildExample 0 es
  end.

Definition canHaveEffect (c : Clause) (effectName : string) : bool :=
  match c_title c with
  | Some t =>
      if JS.startsWith t "Static Semantics:" then
        if String.eqb effectName "user-code" then false else true
      else true
  | None => true
  end.

(** ** [Clause.exit] *)

(** [signature?.return?.kind === 'union'] with a completion member and a
    member that is not a completion. *)
Definition isCompletion (t : Ty) : bool := String.eqb (kind t) "completion".

Definition mixesCompletions (signature : option Signature) : bool :=
  match signature with
  | Some sg =>
      match sig_return sg with
      | Some (TyUnion ts) => existsb isCompletion ts && existsb (negb ∘ isCompletion) ts
      | _ => false
      end
  | None => false
  end.

(** The display names of the special-kind attributes present on the node. *)
Definition specialKindAttributes (n : DomNode) : list (option string) :=
  SPECIAL_KINDS_MAP_get <$> filter (λ k, hasAttribute n k = true) SPECIAL_KINDS.

(** The [div.attributes-tag] element and its text node. *)
Definition attributesTag (text : string) : DomNode :=
  Elem "DIV" [("class", "attributes-tag")] [TextNode text].

(** [kind] of the op entry: the declared type when it is one of [aoidTypes],
    with [sdo] spelled out. *)
Definition opKind (c : Clause) : option string :=
  match c_type c with
  | Some t =>
      if arrayIncludes aoidTypes t then
        Some (if String.eqb t "sdo" then "syntax-directed operation" else t)
      else None
  | None => None
  end.

Definition opEntry (c : Clause) (aoid : string) : OpBiblioEntry :=
  {| oe_aoid := aoid;
     oe_refId := c_id c;
     oe_kind := opKind c;
     oe_signature := c_signature c;
     oe_effects := c_effects c;
     oe_skipReturnChecks := c_skipReturnChecks c;
     oe_skipGlobalChecks := if c_skipGlobalChecks c then Some true else None |}.

Definition clauseEntry (c : Clause) : ClauseBiblioEntry :=
  {| ce_id := c_id c;
     ce_aoid := c_aoid c;
     ce_title := c_title c;
     ce_titleHTML := c_titleHTML c;
     ce_number := c_number c |}.

Definition duplicateDefinition (n : DomNode) (aoid : string) : Warning :=
  nodeWarning "duplicate-definition"
    ("duplicate definition " +:+ JSON.stringify aoid) (Some n).

Definition completionUnion (c : Clause) : Warning :=
  nodeWarning "completion-union"
    "algorithms should return either completions or things which are not completions, never both"
    (c_header c).

(** The special-kind label: prepended to the node and queued for autolinking
    under the clause's namespace. *)
Definition exitAttributes (s : Spec) (n : DomNode) (r : ClauseRef) (c : Clause)
    (alg : bool) (cur : option string) : DomNode * Spec :=
  let attributes := specialKindAttributes n in
  if (0 <? length attributes)%nat then
    let text := JS.join ", " attributes in
    let contents := TextNode text in
    let queued := default [] (s_textNodes s !! c_namespace c) in
    (prepend n (attributesTag text),
     setTextNodes s
       (<[c_namespace c :=
            queued ++ [{| tn_node := contents; tn_clause := r;
                          tn_inAlg := alg; tn_currentId := cur |}]]>
          (s_textNodes s)))
  else (n, s).

(** The op entry, guarded by the duplicate check; both use [spec.namespace]. *)
Definition exitOp (s : Spec) (n : DomNode) (c : Clause) : Spec :=
  match c_aoid c with
  | Some aoid =>
      if JS.truthy (Some aoid) then
        let existing := keysForNamespace (s_biblio s) (s_namespace s) in
        if bool_decide (aoid ∈ existing) then
          warn s (duplicateDefinition n aoid)
        else
          let s' :=
            if mixesCompletions (c_signature c) then warn s (completionUnion c)
            else s in
          setBiblio s' (add (s_biblio s') (EntryOp (opEntry c aoid)) (s_namespace s'))
      else s
  | None => s
  end.

(** [Clause.exit].  [None] stands for the [TypeError] raised on an empty
    clause stack. *)
Definition exit {Numberer : Type} (ctx : Ctx Numberer) : option (Ctx Numberer) :=
  r ← last (clauseStack ctx);
  clause ← heap ctx !! r;
  let s1 := logBuilds (spec ctx) (buildExamples clause) in
  let s2 := logBuilds s1 (buildNotes clause) in
  let '(node', s3) :=
    exitAttributes s2 (node ctx) r clause (inAlg ctx) (currentId ctx) in
  let s4 := exitOp s3 node' clause in
  let s5 :=
    setBiblio s4 (add (s_biblio s4) (EntryClause (clauseEntry clause)) (s_namespace s4)) in
  Some {| spec := s5;
          node := node';
          clauseStack := removelast (clauseStack ctx);
          clauseNumberer := clauseNumberer ctx;
          inAlg := inAlg ctx;
          currentId := currentId ctx;
          heap := heap ctx |}.

(** ** Results of the header grammar (./header-parser) and of the type
    grammar (./type-parser), as far as the clause reads them *)

Record ParsedParam := {
  pp_name : string;
  pp_type : option string;
  pp_typeOffset : nat;
  pp_wrappingTag : option string
}.

Record ParsedHeader := {
  ph_params : list ParsedParam;
  ph_optionalParams : list ParsedParam;
  ph_returnType : option string;
  ph_returnOffset : nat
}.

(** [parseResult.type === 'failure'] against any other result. *)
Inductive ParseResult : Type :=
| ParseFailure
| ParseSuccess (h : ParsedHeader).

(** What a call may throw: a [ParseError] or anything else. *)
Inductive Thrown : Type :=
| ThrownParseError (msg : string) (offset : nat)
| ThrownOther.

(** The destructured result of [formatHeader]. *)
Record FormattedHeader := {
  fh_name : option string;
  fh_formattedHeader : option string;
  fh_formattedParams : option string;
  fh_formattedReturnType : option string
}.

(** The destructured result of [parseStructuredHeaderDl]. *)
Record HeaderDl := {
  dl_description : option DomNode;
  dl_for : option DomNode;
  dl_effects : list string;
  dl_redefinition : bool;
  dl_skipGlobalChecks : bool;
  dl_skipReturnChecks : bool
}.

(** The arguments [formatPreamble] receives after [spec]. *)
Record PreambleArgs := {
  pa_clause : DomNode;
  pa_dl : DomNode;
  pa_type : option string;
  pa_name : string;
  pa_formattedParams : string;
  pa_formattedReturnType : option string;
  pa_for : option DomNode;
  pa_description : option DomNode
}.

(** The part of [spec.locate(header)] that is read. *)
Record HeaderLocation := {
  loc_source : string;
  loc_startTag_endOffset : nat;
  loc_endTag_startOffset : nat
}.

(** ** Walking the element children *)

(** Modelled from the spec: [traverseWhile(first, 'nextElementSibling', p)] of
    ./utils, which is not part of the translated sources: it steps over the
    element siblings while [p] holds and yields the first one where it
    fails.  The result also keeps the nodes before and after it. *)
Fixpoint traverseSiblings (p : DomNode → bool) (skipped rest : list DomNode)
  : option (list DomNode * DomNode * list DomNode) :=
  match rest with
  | [] => None
  | n :: rest' =>
      if isElement n && negb (p n) then Some (skipped, n, rest')
      else traverseSiblings p (skipped ++ [n]) rest'
  end.

Definition firstElementChild (n : DomNode) : option DomNode := head (children n).

(** Modelled from the spec: [traverseWhile(el, 'firstElementChild', p,
    {once: true})] of ./utils takes at most one step down. *)
Definition traverseOnceDown (p : DomNode → bool) (el : DomNode) : option DomNode :=
  if p el then firstElementChild el else Some el.

Fixpoint replaceFirstElement (h : DomNode) (ns : list DomNode) : list DomNode :=
  match ns with
  | [] => []
  | n :: ns' => if isElement n then h :: ns' else n :: replaceFirstElement h ns'
  end.

(** [el.classList.contains(c)]: [c] is one of the white-space separated
    tokens of the [class] attribute. *)
Fixpoint tokens (cur : string) (s : string) : list string :=
  match s with
  | EmptyString => match cur with EmptyString => [] | _ => [cur] end
  | String c s' =>
      if JS.isWhiteSpace c then
        match cur with
        | EmptyString => tokens EmptyString s'
        | _ => cur :: tokens EmptyString s'
        end
      else tokens (cur +:+ String c EmptyString) s'
  end.

Definition classListContains (n : DomNode) (c : string) : bool :=
  match getAttribute n "class" with
  | Some v => arrayIncludes (tokens EmptyString v) c
  | None => false
  end.

(** Where the header sits among the clause's child nodes. *)
Record HeaderSite := {
  hs_before : list DomNode;
  hs_surrogate : DomNode;
  hs_after : list DomNode
}.

(** [extractStructuredHeader]: the description list right after the header,
    stepping over [del] elements.  The nodes stepped over and the nodes after
    the list are kept for [dl.replaceWith]. *)
Definition extractStructuredHeader (after : list DomNode)
  : option (list DomNode * DomNode * list DomNode) :=
  match traverseSiblings (λ el, String.eqb (nodeName el) "DEL") [] after with
  | Some (skipped, dl, rest) =>
      if String.eqb (nodeName dl) "DL" && classListContains dl "header"
      then Some (skipped, dl, rest)
      else None
  | None => None
  end.

Definition withChildNodes (n : DomNode) (k : list DomNode) : DomNode :=
  match n with
  | TextNode d => TextNode d
  | Elem t a _ => Elem t a k
  end.

(** The header element put back in place: it is the surrogate itself or the
    first element child of an [ins] surrogate. *)
Definition plugHeader (surrogate h : DomNode) : DomNode :=
  if String.eqb (nodeName surrogate) "INS"
  then withChildNodes surrogate (replaceFirstElement h (childNodesOf surrogate))
  else h.

Definition plugSite (n : DomNode) (before : list DomNode) (surrogate : DomNode)
    (after : list DomNode) : DomNode :=
  withChildNodes n (before ++ surrogate :: after).

(** [s.toLowerCase()] on the letters A to Z. *)
Definition lowerChar (c : Ascii.ascii) : Ascii.ascii :=
  let n := Ascii.nat_of_ascii c in
  if ((65 <=? n) && (n <=? 90))%nat then Ascii.ascii_of_nat (n + 32) else c.

Fixpoint toLowerCase (s : string) : string :=
  match s with
  | EmptyString => EmptyString
  | String c s' => String (lowerChar c) (toLowerCase s')
  end.

(** [map.get(effect).push(clause)], creating the list on first use. *)
Fixpoint worklistPush (w : list (string * list ClauseRef)) (effect : string)
    (r : ClauseRef) : list (string * list ClauseRef) :=
  match w with
  | [] => [(effect, [r])]
  | (e, cs) :: w' =>
      if String.eqb e effect then (e, cs ++ [r]) :: w'
      else (e, cs) :: worklistPush w' effect r
  end.

(** ** Field assignments on a clause *)

Definition setHeader (c : Clause) (v : option DomNode) : Clause :=
  {| c_id := c_id c;
     c_namespace := c_namespace c;
     c_parentClause := c_parentClause c;
     c_header := v;
     c_title := c_title c;
     c_titleHTML := c_titleHTML c;
     c_subclauses := c_subclauses c;
     c_number := c_number c;
     c_aoid := c_aoid c;
     c_type := c_type c;
     c_notes := c_notes c;
     c_editorNotes := c_editorNotes c;
     c_examples := c_examples c;
     c_effects := c_effects c;
     c_signature := c_signature c;
     c_skipGlobalChecks := c_skipGlobalChecks c;
     c_skipReturnChecks := c_skipReturnChecks c;
     c_isAnnex := c_isAnnex c;
     c_isBackMatter := c_isBackMatter c;
     c_isNormative := c_isNormative c |}.

Definition setTitle (c : Clause) (v : option string) : Clause :=
  {| c_id := c_id c;
     c_namespace := c_namespace c;
     c_parentClause := c_parentClause c;
     c_header := c_header c;
     c_title := v;
     c_titleHTML := c_titleHTML c;
     c_subclauses := c_subclauses c;
     c_number := c_number c;
     c_aoid := c_aoid c;
     c_type := c_type c;
     c_notes := c_notes c;
     c_editorNotes := c_editorNotes c;
     c_examples := c_examples c;
     c_effects := c_effects c;
     c_signature := c_signature c;
     c_skipGlobalChecks := c_skipGlobalChecks c;
     c_skipReturnChecks := c_skipReturnChecks c;
     c_isAnnex := c_isAnnex c;
     c_isBackMatter := c_isBackMatter c;
     c_isNormative := c_isNormative c |}.

Definition setTitleHTML (c : Clause) (v : option string) : Clause :=
  {| c_id := c_id c;
     c_namespace := c_namespace c;
     c_parentClause := c_parentClause c;
     c_header := c_header c;
     c_title := c_title c;
     c_titleHTML := v;
     c_subclauses := c_subclauses c;
     c_number := c_number c;
     c_aoid := c_aoid c;
     c_type := c_type c;
     c_notes := c_notes c;
     c_editorNotes := c_editorNotes c;
     c_examples := c_examples c;
     c_effects := c_effects c;
     c_signature := c_signature c;
     c_skipGlobalChecks := c_skipGlobalChecks c;
     c_skipReturnChecks := c_skipReturnChecks c;
     c_isAnnex := c_isAnnex c;
     c_isBackMatter := c_isBackMatter c;
     c_isNormative := c_isNormative c |}.

Definition setSubclauses (c : Clause) (v : list ClauseRef) : Clause :=
  {| c_id := c_id c;
     c_namespace := c_namespace c;
     c_parentClause := c_parentClause c;
     c_header := c_header c;
     c_title := c_title c;
     c_titleHTML := c_titleHTML c;
     c_subclauses := v;
     c_number := c_number c;
     c_aoid := c_aoid c;
     c_type := c_type c;
     c_notes := c_notes c;
     c_editorNotes := c_editorNotes c;
     c_examples := c_examples c;
     c_effects := c_effects c;
     c_signature := c_signature c;
     c_skipGlobalChecks := c_skipGlobalChecks c;
     c_skipReturnChecks := c_skipReturnChecks c;
     c_isAnnex := c_isAnnex c;
     c_isBackMatter := c_isBackMatter c;
     c_isNormative := c_isNormative c |}.

Definition setAoid (c : Clause) (v : option string) : Clause :=
  {| c_id := c_id c;
     c_namespace := c_namespace c;
     c_parentClause := c_parentClause c;
     c_header := c_header c;
     c_title := c_title c;
     c_titleHTML := c_titleHTML c;
     c_subclauses := c_subclauses c;
     c_number := c_number c;
     c_aoid := v;
     c_type := c_type c;
     c_notes := c_notes c;
     c_editorNotes := c_editorNotes c;
     c_examples := c_examples c;
     c_effects := c_effects c;
     c_signature := c_signature c;
     c_skipGlobalChecks := c_skipGlobalChecks c;
     c_skipReturnChecks := c_skipReturnChecks c;
     c_isAnnex := c_isAnnex c;
     c_isBackMatter := c_isBackMatter c;
     c_isNormative := c_isNormative c |}.

Definition setEffects (c : Clause) (v : list string) : Clause :=
  {| c_id := c_id c;
     c_namespace := c_namespace c;
     c_parentClause := c_parentClause c;
     c_header := c_header c;
     c_title := c_title c;
     c_titleHTML := c_titleHTML c;
     c_subclauses := c_subclauses c;
     c_number := c_number c;
     c_aoid := c_aoid c;
     c_type := c_type c;
     c_notes := c_notes c;
     c_editorNotes := c_editorNotes c;
     c_examples := c_examples c;
     c_effects := v;
     c_signature := c_signature c;
     c_skipGlobalChecks := c_skipGlobalChecks c;
     c_skipReturnChecks := c_skipReturnChecks c;
     c_isAnnex := c_isAnnex c;
     c_isBackMatter := c_isBackMatter c;
     c_isNormative := c_isNormative c |}.

Definition setSignature (c : Clause) (v : option Signature) : Clause :=
  {| c_id := c_id c;
     c_namespace := c_namespace c;
     c_parentClause := c_parentClause c;
     c_header := c_header c;
     c_title := c_title c;
     c_titleHTML := c_titleHTML c;
     c_subclauses := c_subclauses c;
     c_number := c_number c;
     c_aoid := c_aoid c;
     c_type := c_type c;
     c_notes := c_notes c;
     c_editorNotes := c_editorNotes c;
     c_examples := c_examples c;
     c_effects := c_effects c;
     c_signature := v;
     c_skipGlobalChecks := c_skipGlobalChecks c;
     c_skipReturnChecks := c_skipReturnChecks c;
     c_isAnnex := c_isAnnex c;
     c_isBackMatter := c_isBackMatter c;
     c_isNormative := c_isNormative c |}.

Definition setSkipGlobalChecks (c : Clause) (v : bool) : Clause :=
  {| c_id := c_id c;
     c_namespace := c_namespace c;
     c_parentClause := c_parentClause c;
     c_header := c_header c;
     c_title := c_title c;
     c_titleHTML := c_titleHTML c;
     c_subclauses := c_subclauses c;
     c_number := c_number c;
     c_aoid := c_aoid c;
     c_type := c_type c;
     c_notes := c_notes c;
     c_editorNotes := c_editorNotes c;
     c_examples := c_examples c;
     c_effects := c_effects c;
     c_signature := c_signature c;
     c_skipGlobalChecks := v;
     c_skipReturnChecks := c_skipReturnChecks c;
     c_isAnnex := c_isAnnex c;
     c_isBackMatter := c_isBackMatter c;
     c_isNormative := c_isNormative c |}.

Definition setSkipReturnChecks (c : Clause) (v : bool) : Clause :=
  {| c_id := c_id c;
     c_namespace := c_namespace c;
     c_parentClause := c_parentClause c;
     c_header := c_header c;
     c_title := c_title c;
     c_titleHTML := c_titleHTML c;
     c_subclauses := c_subclauses c;
     c_number := c_number c;
     c_aoid := c_aoid c;
     c_type := c_type c;
     c_notes := c_notes c;
     c_editorNotes := c_editorNotes c;
     c_examples := c_examples c;
     c_effects := c_effects c;
     c_signature := c_signature c;
     c_skipGlobalChecks := c_skipGlobalChecks c;
     c_skipReturnChecks := v;
     c_isAnnex := c_isAnnex c;
     c_isBackMatter := c_isBackMatter c;
     c_isNormative := c_isNormative c |}.

(** ** The structured header, the constructor and [Clause.enter] *)

(** [s.slice(a, b)] for offsets that are not negative. *)
Definition slice (s : string) (a b : nat) : string := String.substring a (b - a) s.

(** [header.innerHTML] with the parameter list cut out: everything before the
    first opening parenthesis followed by everything after the last closing
    one, trimmed. *)
Definition stripParameterList (currentHeader : string) : string :=
  JS.trim
    (JS.substring currentHeader 0 (JS.indexOf currentHeader "(")
     +:+ JS.substringFrom currentHeader (JS.lastIndexOf currentHeader ")" + 1)).

Definition missingHeader (msg : string) (n : DomNode) : Warning :=
  nodeWarning "missing-header" msg (Some n).

Definition numericMethodFor (header : DomNode) : Warning :=
  contentsWarning "numeric-method-for"
    "numeric methods should be of the form `Type::operation`" header 1 1.

Definition redundantAoid (n : DomNode) : Warning :=
  attrWarning "header-format"
    "nodes with structured headers should not include an AOID" n "aoid".

Definition missingId (n : DomNode) : Warning :=
  nodeWarning "missing-id" "clause doesn't have an id" (Some n).

Section Builder.

Context {Numberer : Type}.

(** The collaborators.  Those that receive [spec] may use it in any way, so
    they are state transformers on [Spec]; none of them changes the
    document tree. *)
Variable next : Numberer → list Clause → DomNode → string * Numberer.
Variable Builder_init : Spec → DomNode → Spec.
Variable locate : Spec → DomNode → option HeaderLocation.
Variable parseH1 : string → ParseResult.
Variable TypeParser_parse : string → Ty + Thrown.
Variable offsetToLineAndColumn : string → nat → nat * nat.
Variable formatHeader : Spec → DomNode → ParseResult → FormattedHeader * Spec.
Variable parseStructuredHeaderDl : Spec → option string → DomNode → HeaderDl * Spec.
Variable formatPreamble : Spec → PreambleArgs → list DomNode * Spec.
(** [el.innerHTML] as a getter and as a setter. *)
Variable serialize : list DomNode → string.
Variable parseFragment : string → list DomNode.

Definition innerHTML (el : DomNode) : string := serialize (childNodesOf el).

Definition setInnerHTML (el : DomNode) (html : string) : DomNode :=
  withChildNodes el (parseFragment html).

Definition parseType (type : string) (offset : nat) : Ty + Thrown :=
  match TypeParser_parse type with
  | inl t => inl t
  | inr (ThrownParseError msg o) => inr (ThrownParseError msg (o + offset))
  | inr ThrownOther => inr ThrownOther
  end.

(** The type grammar throws nothing but [ParseError]. *)
Definition onlyParseErrors : Prop := ∀ t, TypeParser_parse t ≠ inr ThrownOther.

Definition compileParam (p : ParsedParam) : Param + Thrown :=
  match pp_type p with
  | None => inl {| p_name := pp_name p; p_type := None |}
  | Some t =>
      match parseType t (pp_typeOffset p) with
      | inl ty => inl {| p_name := pp_name p; p_type := Some ty |}
      | inr e => inr e
      end
  end.

(** [ps.map(compile)], left to right, stopping at the first throw. *)
Fixpoint compileParams (ps : list ParsedParam) : list Param + Thrown :=
  match ps with
  | [] => inl []
  | p :: ps' =>
      match compileParam p with
      | inl q =>
          match compileParams ps' with
          | inl qs => inl (q :: qs)
          | inr e => inr e
          end
      | inr e => inr e
      end
  end.

Definition notDeleted (p : ParsedParam) : Prop := pp_wrappingTag p ≠ Some "del".

Definition parsedHeaderToSignature (parsedHeader : ParsedHeader)
  : Signature + Thrown :=
  match compileParams (filter notDeleted (ph_params parsedHeader)) with
  | inr e => inr e
  | inl ps =>
      match compileParams (filter notDeleted (ph_optionalParams parsedHeader)) with
      | inr e => inr e
      | inl os =>
          match ph_returnType parsedHeader with
          | None =>
              inl {| parameters := ps; optionalParameters := os; sig_return := None |}
          | Some t =>
              match parseType t (ph_returnOffset parsedHeader) with
              | inl ty =>
                  inl {| parameters := ps; optionalParameters := os;
                         sig_return := Some ty |}
              | inr e => inr e
              end
          end
      end
  end.

(** The [try] block around [parsedHeaderToSignature]: a [ParseError] becomes
    a diagnostic, anything else is thrown again.  A diagnostic records its
    node as it is when reported. *)
Definition compileSignature (s : Spec) (this : Clause) (header : DomNode)
    (headerSource : string) (parseResult : ParseResult)
  : (Spec * Clause) + Thrown :=
  match parseResult with
  | ParseFailure => inl (s, this)
  | ParseSuccess h =>
      match parsedHeaderToSignature h with
      | inl sg => inl (s, setSignature this (Some sg))
      | inr (ThrownParseError msg offset) =>
          let '(line, column) := offsetToLineAndColumn headerSource offset in
          inl (warn s (contentsWarning "type-parsing" msg header line column), this)
      | inr ThrownOther => inr ThrownOther
      end
  end.

(** A header whose only element child is an [ins], [del] or [mark] wrapper
    gets that wrapper's content trimmed. *)
Definition trimSoleWrapper (header : DomNode) : DomNode :=
  match children header with
  | [w] =>
      if arrayIncludes ["INS"; "DEL"; "MARK"] (nodeName w) then
        withChildNodes header
          (replaceFirstElement (setInnerHTML w (JS.trim (innerHTML w)))
             (childNodesOf header))
      else header
  | _ => header
  end.

(** The header as rendered: without its parameter list for type [sdo],
    otherwise as formatted (or untouched when there is no formatted
    header). *)
Definition renderHeader (type : option string) (formattedHeader : option string)
    (header : DomNode) : DomNode :=
  let currentHeader := default (innerHTML header) formattedHeader in
  if bool_decide (type = Some "sdo") && JS.includes currentHeader "(" then
    trimSoleWrapper (setInnerHTML header (stripParameterList currentHeader))
  else
    match formattedHeader with
    | Some h => setInnerHTML header h
    | None => header
    end.

(** The aoid taken from the structured header, or the diagnostic for a
    redundant explicit one. *)
Definition assignAoid (s : Spec) (n : DomNode) (this : Clause)
    (redefinition : bool) (name type : option string) : Spec * DomNode * Clause :=
  if redefinition then (s, n, this)
  else if hasAttribute n "aoid" then (warn s (redundantAoid n), n, this)
  else
    match name, type with
    | Some nm, Some t =>
        if arrayIncludes aoidTypes t
        then (s, setAttribute n "aoid" nm, setAoid this (Some nm))
        else (s, n, this)
    | _, _ => (s, n, this)
    end.

(** The source of the header between its start and end tags. *)
Definition headerSourceOf (s : Spec) (header : DomNode) : string :=
  match locate s header with
  | Some l =>
      slice (loc_source l) (loc_startTag_endOffset l) (loc_endTag_startOffset l)
  | None => innerHTML header
  end.

(** A numeric method is named [Type::operation]. *)
Definition checkNumericMethod (s : Spec) (type name : option string)
    (header : DomNode) : Spec :=
  match name with
  | Some nm =>
      if bool_decide (type = Some "numeric method") && negb (JS.includes nm "::")
      then warn s (numericMethodFor header)
      else s
  | None => s
  end.

(** What [formatPreamble] is called with. *)
Definition preambleArgs (n dl : DomNode) (type : option string)
    (fh : FormattedHeader) (fields : HeaderDl) : PreambleArgs :=
  {| pa_clause := n;
     pa_dl := dl;
     pa_type := type;
     pa_name := default "UNKNOWN" (fh_name fh);
     pa_formattedParams := default "UNPARSEABLE ARGUMENTS" (fh_formattedParams fh);
     pa_formattedReturnType := fh_formattedReturnType fh;
     pa_for := dl_for fields;
     pa_description := dl_description fields |}.

(** The overrides and the effects of the description list, recorded on the
    clause and on the effect worklist. *)
Definition recordFields (r : ClauseRef) (s : Spec) (this : Clause)
    (fields : HeaderDl) : Spec * Clause :=
  let this1 := setSkipGlobalChecks this (dl_skipGlobalChecks fields) in
  let this2 := setSkipReturnChecks this1 (dl_skipReturnChecks fields) in
  let this3 := setEffects this2 (c_effects this2 ++ dl_effects fields) in
  (setEffectWorklist s
     (foldl (λ w effect, worklistPush w effect r)
        (s_effectWorklist s) (dl_effects fields)),
   this3).

(** [buildStructuredHeader(header, headerSurrogate)] on the clause [this]
    allocated at [r]; [site] locates the surrogate among the child nodes of
    the clause node [n].  The result is the spec, the clause node, the
    clause and the header element after the call. *)
Definition buildStructuredHeader (r : ClauseRef) (s : Spec) (n : DomNode)
    (this : Clause) (site : HeaderSite) (header : DomNode)
  : (Spec * DomNode * Clause * DomNode) + Thrown :=
  match extractStructuredHeader (hs_after site) with
  | None => inl (s, n, this, header)
  | Some (skipped, dl, rest) =>
      let type := c_type this in
      let headerSource := headerSourceOf s header in
      let parseResult := parseH1 headerSource in
      match compileSignature s this header headerSource parseResult with
      | inr e => inr e
      | inl (s1, this1) =>
          let '(fh, s2) := formatHeader s1 header parseResult in
          let s3 := checkNumericMethod s2 type (fh_name fh) header in
          let header' := renderHeader type (fh_formattedHeader fh) header in
          let surrogate' := plugHeader (hs_surrogate site) header' in
          let n1 := plugSite n (hs_before site) surrogate' (hs_after site) in
          let '(fields, s4) := parseStructuredHeaderDl s3 type dl in
          let '(paras, s5) := formatPreamble s4 (preambleArgs n1 dl type fh fields) in
          let n2 := plugSite n1 (hs_before site) surrogate' (skipped ++ paras ++ rest) in
          let '(s6, n3, this2) :=
            assignAoid s5 n2 this1 (dl_redefinition fields) (fh_name fh) type in
          let '(s7, this3) := recordFields r s6 this2 fields in
          inl (s7, n3, this3, header')
      end
  end.

(** The elements stepped over in front of the header: [del] and empty
    [span] (old ids). *)
Definition skipBeforeHeader (el : DomNode) : bool :=
  String.eqb (nodeName el) "DEL"
  || (String.eqb (nodeName el) "SPAN" && (length (children el) =? 0)%nat).

(** [new Clause(spec, node, parent, number)], allocated at [r]. *)
Definition newClause (s : Spec) (hp : list Clause) (n : DomNode)
    (parent : option ClauseRef) (number : string) (r : ClauseRef)
  : (Spec * DomNode * Clause) + Thrown :=
  let s0 := Builder_init s n in
  let isAnnex := String.eqb (nodeName n) "EMU-ANNEX" in
  let parentNamespace :=
    match parent ≫= (λ p, hp !! p) with
    | Some p => c_namespace p
    | None => s_namespace s0
    end in
  let '(namespace, s1) :=
    match getAttribute n "namespace" with
    | Some ns => (ns, setBiblio s0 (createNamespace (s_biblio s0) ns parentNamespace))
    | None => (parentNamespace, s0)
    end in
  let this :=
    {| c_id := getAttribute n "id";
       c_namespace := namespace;
       c_parentClause := parent;
       c_header := None;
       c_title := None;
       c_titleHTML := None;
       c_subclauses := [];
       c_number := number;
       c_aoid :=
         match getAttribute n "aoid" with
         | Some EmptyString => Some (nodeId n)
         | a => a
         end;
       c_type :=
         match getAttribute n "type" with
         | Some EmptyString => None
         | t => t
         end;
       c_notes := [];
       c_editorNotes := [];
       c_examples := [];
       c_effects := [];
       c_signature := None;
       c_skipGlobalChecks := false;
       c_skipReturnChecks := false;
       c_isAnnex := isAnnex;
       c_isBackMatter := isAnnex && hasAttribute n "back-matter";
       c_isNormative := negb isAnnex || hasAttribute n "normative" |} in
  let unknown (s' : Spec) :=
    inl (s', n, setTitleHTML (setTitle this (Some "UNKNOWN")) (Some "UNKNOWN")) in
  match traverseSiblings skipBeforeHeader [] (childNodesOf n) with
  | None => unknown (warn s1 (missingHeader "could not locate header element" n))
  | Some (before, header, after) =>
      match traverseOnceDown (λ el, String.eqb (nodeName el) "INS") header with
      | None => unknown (warn s1 (missingHeader "could not locate header element" n))
      | Some headerH1 =>
          if String.eqb (nodeName headerH1) "H1" then
            match
              buildStructuredHeader r s1 n this
                {| hs_before := before; hs_surrogate := header; hs_after := after |}
                headerH1
            with
            | inl (s2, n', this', headerH1') =>
                inl (s2, n', setHeader this' (Some headerH1'))
            | inr e => inr e
            end
          else
            unknown
              (warn s1
                 (missingHeader
                    ("could not locate header element; found <"
                     +:+ toLowerCase (nodeName header) +:+ "> before any <h1>")
                    header))
      end
  end.

(** [Clause.enter] *)
Definition enter (ctx : Ctx Numberer) : Ctx Numberer + Thrown :=
  let n := node ctx in
  let s0 :=
    if JS.truthy (Some (nodeId n)) then spec ctx
    else warn (spec ctx) (missingId n) in
  let '(nextNumber, numberer') :=
    if String.eqb (nodeName n) "EMU-INTRO" then (EmptyString, clauseNumberer ctx)
    else next (clauseNumberer ctx)
           (omap (λ p, heap ctx !! p) (clauseStack ctx)) n in
  let parent := last (clauseStack ctx) in
  let r := length (heap ctx) in
  match newClause s0 (heap ctx) n parent nextNumber r with
  | inr e => inr e
  | inl (s1, n1, clause) =>
      let hp := heap ctx ++ [clause] in
      let '(hp', s2) :=
        match parent with
        | Some p =>
            (alter (λ pc, setSubclauses pc (c_subclauses pc ++ [r])) p hp, s1)
        | None => (hp, pushSubclause s1 r)
        end in
      inl {| spec := s2;
             node := n1;
             clauseStack := clauseStack ctx ++ [r];
             clauseNumberer := numberer';
             inAlg := inAlg ctx;
             currentId := currentId ctx;
             heap := hp' |}
  end.

End Builder.

(** * Vocabulary of the statements *)

(** The title of the clause starts with the given text. *)
Definition titleBeginsWith (c : Clause) (p : string) : Prop :=
  ∃ t rest, c_title c = Some t ∧ t = p +:+ rest.

(** The clause on top of the clause stack. *)
Definition topClause {Numberer : Type} (ctx : Ctx Numberer) : option Clause :=
  last (clauseStack ctx) ≫= (λ r, heap ctx !! r).

(** The diagnostics reported between two states of the spec. *)
Definition emitted (s s' : Spec) : list Warning :=
  drop (length (s_warnings s)) (s_warnings s').

Definition emittedFor (rule : string) (s s' : Spec) : list Warning :=
  filter (λ w, ruleId w = rule) (emitted s s').

(** The entries a namespace gained between two states of the registry. *)
Definition addedEntries (b b' : Biblio) (ns : string) : list PartialBiblioEntry :=
  drop (length (entriesOf b ns)) (entriesOf b' ns).

Definition addedOps (b b' : Biblio) (ns : string) : list OpBiblioEntry :=
  omap opOf (addedEntries b b' ns).

Definition addedClauses (b b' : Biblio) (ns : string) : list ClauseBiblioEntry :=
  omap clauseOf (addedEntries b b' ns).

(** The [build] calls made between two states of the spec. *)
Definition built (s s' : Spec) : list BuildCall :=
  drop (length (s_builds s)) (s_builds s').

(** The labelling rule for a list of notes or examples: a single item is
    built without label, two or more are built with the labels 1, 2, ... in
    declaration order. *)
Definition labelledInOrder {A : Type} (mk : A → option nat → BuildCall)
    (xs : list A) (calls : list BuildCall) : Prop :=
  length calls = length xs
  ∧ (∀ x, xs = [x] → calls = [mk x None])
  ∧ ((2 ≤ length xs)%nat →
     ∀ i x, xs !! i = Some x → calls !! i = Some (mk x (Some (i + 1)%nat))).

(** The label of the special kinds in the fixed order Normative Optional,
    Legacy, Deprecated, for the three attributes being present or not. *)
Definition expectedLabel (normativeOptional legacy deprecated : bool)
  : option string :=
  match
    (if normativeOptional then ["Normative Optional"] else [])
    ++ (if legacy then ["Legacy"] else [])
    ++ (if deprecated then ["Deprecated"] else [])
  with
  | [] => None
  | names => Some (String.concat ", " names)
  end.

(** ** The constructor of the legacy builder

    The older, constructor-based [Clause(spec, node)] numbers a clause while
    it is constructed.  Only the constructor is needed here. *)

Module Legacy.


Record Clause := {
  header : DomNode;
  title : string;
  subclauses : list ClauseRef;
  id : string;
  depth : nat;
  number : string;
  parentClause : option ClauseRef
}.

(** The spec object: its top-level clauses, [biblio.ops], the state behind
    [getNextClauseNumber] and the clause objects. *)
Record Spec {Numbering : Type} := {
  spec_subclauses : list ClauseRef;
  ops : gmap string string;
  numbering : Numbering;
  clauses : list Clause
}.
Arguments Spec : clear implicits.




Definition pushSubclause (c : Clause) (r : ClauseRef) : Clause :=
  {| header := header c; title := title c; subclauses := subclauses c ++ [r];
     id := id c; depth := depth c; number := number c;
     parentClause := parentClause c |}.

Section Constructor.

Context {Numbering : Type}.
Variable getNextClauseNumber : Numbering → nat → bool → string * Numbering.


End Constructor.

End Legacy.

(** * Stand-ins for the collaborators

    Small executable collaborators and documents on which the builder can be
    run.  The statements below quantify over all collaborators; these serve
    to evaluate them. *)

Module Demo.

Definition next (k : nat) (_ : list Clause) (_ : DomNode) : string * nat :=
  (String (Ascii.ascii_of_nat (49 + k)) EmptyString, S k).


Definition Builder_init (s : Spec) (_ : DomNode) : Spec := s.

Definition locate (_ : Spec) (_ : DomNode) : option HeaderLocation := None.

Fixpoint serializeNode (n : DomNode) : string :=
  match n with
  | TextNode d => d
  | Elem t _ k =>
      "<" +:+ toLowerCase t +:+ ">"
      +:+ (fix go (ks : list DomNode) : string :=
             match ks with
             | [] => EmptyString
             | x :: ks' => serializeNode x +:+ go ks'
             end) k
      +:+ "</" +:+ toLowerCase t +:+ ">"
  end.

Definition serialize (ns : list DomNode) : string :=
  String.concat "" (serializeNode <$> ns).

(** Markup-free text becomes one text node. *)
Definition parseFragment (html : string) : list DomNode :=
  match html with
  | EmptyString => []
  | _ => [TextNode html]
  end.

(** A header parses when it has a parameter list. *)
Definition parseH1 (source : string) : ParseResult :=
  if JS.includes source "(" then
    ParseSuccess {| ph_params := []; ph_optionalParams := [];
                    ph_returnType := None; ph_returnOffset := 0 |}
  else ParseFailure.

Definition TypeParser_parse (s : string) : Ty + Thrown := inl (TyOpaque s).

Definition offsetToLineAndColumn (_ : string) (offset : nat) : nat * nat :=
  (1, offset + 1)%nat.

Definition formatHeader (s : Spec) (header : DomNode) (r : ParseResult)
  : FormattedHeader * Spec :=
  match r with
  | ParseFailure =>
      ({| fh_name := None; fh_formattedHeader := None;
          fh_formattedParams := None; fh_formattedReturnType := None |}, s)
  | ParseSuccess _ =>
      let source := serialize (childNodesOf header) in
      ({| fh_name := Some (JS.trim (JS.substring source 0 (JS.indexOf source "(")));
          fh_formattedHeader := Some source;
          fh_formattedParams := Some "no arguments";
          fh_formattedReturnType := None |}, s)
  end.

Definition parseStructuredHeaderDl (s : Spec) (_ : option string) (dl : DomNode)
  : HeaderDl * Spec :=
  ({| dl_description := None; dl_for := None; dl_effects := [];
      dl_redefinition := hasAttribute dl "redefinition";
      dl_skipGlobalChecks := false; dl_skipReturnChecks := false |}, s).

Definition formatPreamble (s : Spec) (a : PreambleArgs) : list DomNode * Spec :=
  ([Elem "P" [] [TextNode ("The operation " +:+ pa_name a +:+ " takes "
                           +:+ pa_formattedParams a +:+ ".")]], s).

Definition enter : Ctx nat → Ctx nat + Thrown :=
  enter next Builder_init locate parseH1 TypeParser_parse offsetToLineAndColumn
    formatHeader parseStructuredHeaderDl formatPreamble serialize parseFragment.

Definition emptySpec : Spec :=
  {| s_namespace := "spec"; s_biblio := emptyBiblio; s_subclauses := [];
     s_textNodes := ∅; s_effectWorklist := []; s_warnings := [];
     s_builds := [] |}.

(** The context of a traversal that is about to enter or leave [n]. *)
Definition at_node (s : Spec) (n : DomNode) (stack : list ClauseRef)
    (hp : list Clause) : Ctx nat :=
  {| spec := s; node := n; clauseStack := stack; clauseNumberer := 0%nat;
     inAlg := false; currentId := None; heap := hp |}.

Definition structuredClause (attrs : list (string * string)) (h1 : string)
  : DomNode :=
  Elem "EMU-CLAUSE" attrs
    [Elem "H1" [] [TextNode h1]; Elem "DL" [("class", "header")] []].


(** A clause object as [exit] finds it. *)
Definition clause (id ns : string) (aoid type : option string)
    (sg : option Signature) : Clause :=
  {| c_id := Some id; c_namespace := ns; c_parentClause := None;
     c_header := None; c_title := Some id; c_titleHTML := Some id;
     c_subclauses := []; c_number := "1"; c_aoid := aoid; c_type := type;
     c_notes := []; c_editorNotes := []; c_examples := []; c_effects := [];
     c_signature := sg; c_skipGlobalChecks := false;
     c_skipReturnChecks := false; c_isAnnex := false;
     c_isBackMatter := false; c_isNormative := true |}.

(** [enter] as an option, and the context [exit] leaves behind. *)
Definition entered (ctx : Ctx nat) : option (Ctx nat) :=
  match enter ctx with
  | inl ctx' => Some ctx'
  | inr _ => None
  end.

Definition exited (ctx : Ctx nat) : Ctx nat := default ctx (exit ctx).

Definition buildStructuredHeader :=
  buildStructuredHeader locate parseH1 TypeParser_parse offsetToLineAndColumn
    formatHeader parseStructuredHeaderDl formatPreamble serialize parseFragment.

(** A clause in a namespace of its own that declares the aoid [Foo]. *)
Definition namespaced : DomNode :=
  Elem "EMU-CLAUSE" [("id", "sec-foo"); ("namespace", "inner"); ("aoid", "Foo")]
    [Elem "H1" [] [TextNode "Foo"]].

(** A registry in which the namespace [inner] already has the op [Foo]. *)
Definition innerHasFoo : Spec :=
  setBiblio emptySpec
    (add emptyBiblio
       (EntryOp (opEntry (clause "sec-bar" "inner" (Some "Foo") None None) "Foo"))
       "inner").




(** A signature that returns [a Completion Record | a Number]. *)
Definition mixedReturn : Signature :=
  {| parameters := []; optionalParameters := [];
     sig_return :=
       Some (TyUnion [TyCompletion (Some (TyOpaque "Number")); TyOpaque "Number"]) |}.

(** A redefinition keeps its signature and gets no aoid. *)
Definition redefinition : Clause :=
  clause "sec-redef" "spec" None (Some "abstract operation") (Some mixedReturn).

Definition operation : Clause :=
  clause "sec-op" "spec" (Some "Op") (Some "abstract operation") (Some mixedReturn).

Definition leaving (c : Clause) : Ctx nat :=
  at_node emptySpec (Elem "EMU-CLAUSE" [] []) [0%nat] [c].

(** A clause with two notes, an editor note and one example. *)
Definition annotated : Clause :=
  {| c_id := Some "sec-notes"; c_namespace := "spec"; c_parentClause := None;
     c_header := None; c_title := Some "Notes"; c_titleHTML := Some "Notes";
     c_subclauses := []; c_number := "1"; c_aoid := None; c_type := None;
     c_notes := [{| note_id := "n1" |}; {| note_id := "n2" |}];
     c_editorNotes := [{| note_id := "e1" |}];
     c_examples := [{| example_id := "x1" |}];
     c_effects := []; c_signature := None; c_skipGlobalChecks := false;
     c_skipReturnChecks := false; c_isAnnex := false;
     c_isBackMatter := false; c_isNormative := true |}.

(** A node whose special-kind attributes come in the reverse order. *)
Definition deprecatedLegacy : DomNode :=
  Elem "EMU-CLAUSE" [("deprecated", ""); ("id", "sec-old"); ("legacy", "")] [].

(** The same clause declared with the short and with the spelled-out type
    of a syntax-directed operation. *)
Definition sdoShort : DomNode :=
  structuredClause [("id", "sec-eval"); ("type", "sdo")] "Evaluation ( _a_ )".

Definition sdoLong : DomNode :=
  structuredClause [("id", "sec-eval"); ("type", "syntax-directed operation")]
    "Evaluation ( _a_ )".

(** The header of the clause on top of the stack, serialised. *)
Definition headerText (ctx : Ctx nat) : option string :=
  match topClause ctx with
  | Some c => innerHTML serialize <$> c_header c
  | None => None
  end.

(** The pieces of a structured clause [buildStructuredHeader] works on. *)
Definition h1 (text : string) : DomNode := Elem "H1" [] [TextNode text].
Definition dl : DomNode := Elem "DL" [("class", "header")] [].
Definition site (text : string) : HeaderSite :=
  {| hs_before := []; hs_surrogate := h1 text; hs_after := [dl] |}.
Definition abstractOperation (text : string) : DomNode :=
  structuredClause [("id", "sec-foo"); ("type", "abstract operation")] text.
Definition fresh : Clause :=
  clause "sec-foo" "spec" None (Some "abstract operation") None.

Definition namespacedClause : Clause :=
  clause "sec-foo" "inner" (Some "Foo") None None.

Definition leavingNamespaced : Ctx nat :=
  at_node emptySpec namespaced [0%nat] [namespacedClause].




(** The result of [buildStructuredHeader] on an abstract operation whose
    header has the given text. *)
Definition builtHeader (text : string) : Spec * DomNode * Clause * DomNode :=
  match
    buildStructuredHeader 0%nat emptySpec (abstractOperation text) fresh
      (site text) (h1 text)
  with
  | inl res => res
  | inr _ => (emptySpec, abstractOperation text, fresh, h1 text)
  end.

End Demo.


(** The label a node gets for its special-kind attributes. *)
Definition labelFor (n : DomNode) : option string :=
  expectedLabel (hasAttribute n "normative-optional") (hasAttribute n "legacy")
    (hasAttribute n "deprecated").

(** The outcome of the op part of [exit], by the three ways it can go. *)
Inductive OpOutcome : Type :=
| NoAoid
| Duplicate (aoid : string)
| Registered (aoid : string).

Definition opOutcome (s : Spec) (c : Clause) : OpOutcome :=
  match c_aoid c with
  | Some a =>
      if JS.truthy (Some a) then
        if bool_decide (a ∈ keysForNamespace (s_biblio s) (s_namespace s))
        then Duplicate a
        else Registered a
      else NoAoid
  | None => NoAoid
  end.


(** * The rest of the module *)

(** ** [getSecnumHTML] *)

(** An attribute value in double quotes, as written in markup. *)
Definition quoted (s : string) : string :=
  String JSON.quote (s +:+ String JSON.quote "").

(** The opening tag [<span class=...>]. *)
Definition spanOf (class : string) : string :=
  "<span class=" +:+ quoted class +:+ ">".

(** [clause.getSecnumHTML()]; [parentName] is the node name of
    [this.node.parentElement], if there is one. *)
Definition getSecnumHTML (c : Clause) (parentName : option string) : string :=
  if negb (JS.truthy (Some (c_number c))) || c_isBackMatter c then ""
  else if c_isAnnex c then
    if bool_decide (parentName = Some "EMU-ANNEX") then
      spanOf "secnum" +:+ c_number c +:+ "</span> "
    else
      spanOf "secnum" +:+ "Annex " +:+ c_number c +:+ " "
      +:+ spanOf "annex-kind" +:+ "("
      +:+ (if c_isNormative c then "normative" else "informative")
      +:+ ")</span></span> "
  else spanOf "secnum" +:+ c_number c +:+ "</span> ".

(** ** The shape of the clause tree *)

(** Every reference of the list points into the heap. *)
Definition refsIn (hp : list Clause) (rs : list ClauseRef) : Prop :=
  Forall (λ r, (r < length hp)%nat) rs.

(** The clause stack points into the heap, the subclauses of a clause are
    clauses allocated after it, and a clause with a parent was allocated
    after the parent and is one of the parent's subclauses. *)
Definition wellFormed {Numberer : Type} (ctx : Ctx Numberer) : Prop :=
  refsIn (heap ctx) (clauseStack ctx)
  ∧ ∀ r c, heap ctx !! r = Some c →
      Forall (λ k, (r < k < length (heap ctx))%nat) (c_subclauses c)
      ∧ ∀ p, c_parentClause c = Some p →
          (p < r)%nat ∧ ∃ pc, heap ctx !! p = Some pc ∧ r ∈ c_subclauses pc.

(** The fields of a clause that only its constructor sets. *)
Definition sameNode (c c' : Clause) : Prop :=
  c_id c' = c_id c ∧ c_namespace c' = c_namespace c
  ∧ c_parentClause c' = c_parentClause c ∧ c_subclauses c' = c_subclauses c
  ∧ c_number c' = c_number c ∧ c_type c' = c_type c
  ∧ c_title c' = c_title c ∧ c_titleHTML c' = c_titleHTML c
  ∧ c_notes c' = c_notes c ∧ c_editorNotes c' = c_editorNotes c
  ∧ c_examples c' = c_examples c
  ∧ c_isAnnex c' = c_isAnnex c ∧ c_isBackMatter c' = c_isBackMatter c
  ∧ c_isNormative c' = c_isNormative c.

(** [map.get(effect)], empty for an effect that was never declared. *)
Fixpoint worklistGet (w : list (string * list ClauseRef)) (effect : string)
  : list ClauseRef :=
  match w with
  | [] => []
  | (e, cs) :: w' => if String.eqb e effect then cs else worklistGet w' effect
  end.

(** How often [x] occurs in [xs]. *)
Definition occurrences (x : string) (xs : list string) : nat :=
  length (filter (λ y, y = x) xs).


(** The op entries one exit registers: that of the clause when its aoid is
    new to the spec-level namespace, none otherwise. *)
Definition registeredOps (s : Spec) (c : Clause) : list OpBiblioEntry :=
  match opOutcome s c with
  | Registered a => [opEntry c a]
  | _ => []
  end.


(** The parent gains a subclause: [parent.subclauses.push(clause)]. *)
Definition addSubclause (r : ClauseRef) (pc : Clause) : Clause :=
  setSubclauses pc (c_subclauses pc ++ [r]).

(** ** Reading the signature off a parsed header *)

(** The type annotations of a parsed header in the order in which they are
    compiled, each with its offset in the header source: those of the
    required parameters, then those of the optional ones (deleted parameters
    left out), then the return type. *)
Definition typedSlots (h : ParsedHeader) : list (string * nat) :=
  let slot (p : ParsedParam) := (λ t, (t, pp_typeOffset p)) <$> pp_type p in
  omap slot (filter (λ p, pp_wrappingTag p ≠ Some "del") (ph_params h))
  ++ omap slot (filter (λ p, pp_wrappingTag p ≠ Some "del") (ph_optionalParams h))
  ++ match ph_returnType h with
     | Some t => [(t, ph_returnOffset h)]
     | None => []
     end.

(** What the first rejected annotation throws, a parse error having its
    offset moved by the offset of the annotation. *)
Fixpoint firstFailure (parse : string → Ty + Thrown) (slots : list (string * nat))
  : option Thrown :=
  match slots with
  | [] => None
  | (t, o) :: rest =>
      match parse t with
      | inl _ => firstFailure parse rest
      | inr (ThrownParseError msg k) => Some (ThrownParseError msg (k + o))
      | inr ThrownOther => Some ThrownOther
      end
  end.

(** A parameter of the signature made from a parsed one: same name, and the
    compiled type of its annotation, if it has one. *)
Definition compiledFrom (parse : string → Ty + Thrown) (p : ParsedParam) (q : Param)
  : Prop :=
  p_name q = pp_name p
  ∧ match pp_type p with
    | Some t => ∃ ty, parse t = inl ty ∧ p_type q = Some ty
    | None => p_type q = None
    end.

(** ** The legacy clause: depths and text nodes *)


Definition NO_EMD : list string :=
  ["PRE"; "CODE"; "EMU-CLAUSE"; "EMU-PRODUCTION"; "EMU-ALG"].

(** [textNodesUnder(node)]: the text nodes below [node] that ecmarkdown is
    run on, in document order.  A node is given by its path, the child
    indices that lead to it from [node]. *)
Fixpoint textNodesUnder (node : DomNode) : list (list nat) :=
  match node with
  | TextNode _ => []
  | Elem _ _ k =>
      (fix go (i : nat) (ks : list DomNode) : list (list nat) :=
         match ks with
         | [] => []
         | x :: ks' =>
             (if negb (isElement x) then [[i]]
              else if negb (arrayIncludes NO_EMD (nodeName x))
                   then map (cons i) (textNodesUnder x)
                   else [])
             ++ go (S i) ks'
         end) 0%nat k
  end.

(** The node at the end of a path. *)
Fixpoint nodeAt (n : DomNode) (path : list nat) : option DomNode :=
  match path with
  | [] => Some n
  | i :: path' =>
      match childNodesOf n !! i with
      | Some c => nodeAt c path'
      | None => None
      end
  end.

(** [textNodesUnder] on the child nodes from index [i] on. *)
Fixpoint textNodesFrom (i : nat) (ks : list DomNode) : list (list nat) :=
  match ks with
  | [] => []
  | x :: ks' =>
      (if negb (isElement x) then [[i]]
       else if negb (arrayIncludes NO_EMD (nodeName x))
            then map (cons i) (textNodesUnder x)
            else [])
      ++ textNodesFrom (S i) ks'
  end.

(** ** Further documents to run the builder on *)

Module Sample.

Definition construct :=
  newClause Demo.Builder_init Demo.locate Demo.parseH1 Demo.TypeParser_parse
    Demo.offsetToLineAndColumn Demo.formatHeader Demo.parseStructuredHeaderDl
    Demo.formatPreamble Demo.serialize Demo.parseFragment.

(** The clause made of a node at the top level of an empty document. *)
Definition constructed (n : DomNode) (number : string) : Spec * DomNode * Clause :=
  match construct Demo.emptySpec [] n None number 0%nat with
  | inl res => res
  | inr _ => (Demo.emptySpec, n, Demo.fresh)
  end.

(** Leaving a deprecated legacy clause of the namespace [inner]. *)
Definition labelled : Ctx nat :=
  Demo.at_node Demo.emptySpec Demo.deprecatedLegacy [0%nat] [Demo.namespacedClause].

(** Entering an abstract operation below the clause [Demo.fresh]. *)
Definition entering : Ctx nat :=
  Demo.at_node Demo.emptySpec (Demo.abstractOperation "Foo ( _a_ )") [0%nat]
    [Demo.fresh].

Definition afterEnter : Ctx nat := default entering (Demo.entered entering).

Definition annex : DomNode :=
  Elem "EMU-ANNEX" [("id", "sec-grammar"); ("normative", "")]
    [Demo.h1 "Grammar Summary"].

(** A structured header named [Foo] on a node with the aoid [Bar]. *)
Definition explicitAoid : DomNode :=
  Demo.structuredClause
    [("id", "sec-foo"); ("type", "abstract operation"); ("aoid", "Bar")]
    "Foo ( _a_ )".


(** A parsed header with a deleted parameter, an optional parameter without
    annotation and a return type. *)
Definition parsed : ParsedHeader :=
  {| ph_params :=
       [{| pp_name := "_a_"; pp_type := Some "a Number"; pp_typeOffset := 6;
           pp_wrappingTag := None |};
        {| pp_name := "_b_"; pp_type := Some "a String"; pp_typeOffset := 20;
           pp_wrappingTag := Some "del" |}];
     ph_optionalParams :=
       [{| pp_name := "_c_"; pp_type := None; pp_typeOffset := 0;
           pp_wrappingTag := Some "ins" |}];
     ph_returnType := Some "a Boolean";
     ph_returnOffset := 40 |}.

Definition signature : Signature :=
  {| parameters := [{| p_name := "_a_"; p_type := Some (TyOpaque "a Number") |}];
     optionalParameters := [{| p_name := "_c_"; p_type := None |}];
     sig_return := Some (TyOpaque "a Boolean") |}.

(** A description list that declares the effect [user-code] twice and
    skips the global checks. *)
Definition parseDlWithEffects (s : Spec) (_ : option string) (_ : DomNode)
  : HeaderDl * Spec :=
  ({| dl_description := None; dl_for := None;
      dl_effects := ["user-code"; "user-code"];
      dl_redefinition := false;
      dl_skipGlobalChecks := true; dl_skipReturnChecks := false |}, s).

Definition buildWithEffects :=
  buildStructuredHeader Demo.locate Demo.parseH1 Demo.TypeParser_parse
    Demo.offsetToLineAndColumn Demo.formatHeader parseDlWithEffects
    Demo.formatPreamble Demo.serialize Demo.parseFragment.

Definition builtWithEffects : Spec * DomNode * Clause * DomNode :=
  let text := "Foo ( _a_ )" in
  match
    buildWithEffects 0%nat Demo.emptySpec (Demo.abstractOperation text) Demo.fresh
      (Demo.site text) (Demo.h1 text)
  with
  | inl res => res
  | inr _ => (Demo.emptySpec, Demo.abstractOperation text, Demo.fresh, Demo.h1 text)
  end.


End Sample.

(** * Properties *)

(** ** Strings *)

Lemma prefix_append (p s : string) :
  String.prefix p s = true ↔ ∃ rest, s = p +:+ rest.
Proof.
  revert s. induction p as [|a p IH]; intros s.
  - destruct s; simpl; split; eauto.
  - destruct s as [|b s]; simpl.
    + split; [discriminate | intros [rest H]; discriminate].
    + destruct (Ascii.ascii_dec a b) as [->|Hne].
      * rewrite IH. split; intros [rest H]; exists rest.
        -- by subst.
        -- by injection H.
      * split; [discriminate | intros [rest H]; by injection H].
Qed.

(** ** The effect query *)

Lemma canHaveEffect_user_code (c : Clause) :
  canHaveEffect c "user-code" = false ↔ titleBeginsWith c "Static Semantics:".
Proof.
  unfold canHaveEffect, titleBeginsWith, JS.startsWith.
  destruct (c_title c) as [t|].
  - destruct (String.prefix "Static Semantics:" t) eqn:Hp.
    + apply prefix_append in Hp as [rest ->]. split; [|done].
      intros _. by exists ("Static Semantics:" +:+ rest), rest.
    + split; [discriminate|]. intros (t' & rest & [= <-] & ->).
      assert (String.prefix "Static Semantics:" ("Static Semantics:" +:+ rest) = true)
        by (apply prefix_append; eauto).
      congruence.
  - split; [discriminate|]. intros (t & rest & H & _). discriminate.
Qed.

(** C7: a clause whose title begins with "Static Semantics:" answers [false]
    to [canHaveEffect("user-code")], and every other clause (a clause without
    title included) answers [true]. *)
Theorem static_semantics_cannot_run_user_code (c : Clause) :
  (titleBeginsWith c "Static Semantics:" → canHaveEffect c "user-code" = false)
  ∧ (¬ titleBeginsWith c "Static Semantics:" → canHaveEffect c "user-code" = true).
Proof.
  split; intros H.
  - by apply canHaveEffect_user_code.
  - destruct (canHaveEffect c "user-code") eqn:E; [done|].
    by apply canHaveEffect_user_code in E.
Qed.

(** ** Notes and examples *)

Lemma buildNumbered_length {A : Type} (mk : A → option nat → BuildCall) i xs :
  length (buildNumbered mk i xs) = length xs.
Proof. revert i. induction xs as [|x xs IH]; intros i; simpl; [done|]. by rewrite IH. Qed.

Lemma buildNumbered_lookup {A : Type} (mk : A → option nat → BuildCall) i xs k x :
  xs !! k = Some x →
  buildNumbered mk i xs !! k = Some (mk x (Some (i + k + 1)%nat)).
Proof.
  revert i k. induction xs as [|y xs IH]; intros i k H; [done|].
  destruct k as [|k]; simpl in *.
  - injection H as ->. by rewrite Nat.add_0_r.
  - rewrite (IH (S i) k H). do 3 f_equal. lia.
Qed.

Lemma buildNumbered_labelled {A : Type} (mk : A → option nat → BuildCall) xs :
  length xs ≠ 1%nat → labelledInOrder mk xs (buildNumbered mk 0 xs).
Proof.
  intros Hlen. split; [apply buildNumbered_length|]. split.
  - intros x ->. done.
  - intros _ i x Hx. by rewrite (buildNumbered_lookup mk 0 xs i x Hx).
Qed.

Lemma single_labelled {A : Type} (mk : A → option nat → BuildCall) x :
  labelledInOrder mk [x] [mk x None].
Proof.
  split; [done|]. split.
  - by intros y [= ->].
  - simpl. lia.
Qed.

Lemma buildExamples_labelled (c : Clause) :
  labelledInOrder BuildExample (c_examples c) (buildExamples c).
Proof.
  unfold buildExamples. destruct (c_examples c) as [|e [|e' es]].
  - by apply buildNumbered_labelled.
  - apply single_labelled.
  - by apply buildNumbered_labelled.
Qed.

Lemma buildNotes_labelled (c : Clause) :
  ∃ noteCalls,
    buildNotes c = noteCalls ++ ((λ n, BuildNote n None) <$> c_editorNotes c)
    ∧ labelledInOrder BuildNote (c_notes c) noteCalls.
Proof.
  unfold buildNotes. eexists; split; [reflexivity|].
  destruct (c_notes c) as [|n [|n' ns]].
  - by apply buildNumbered_labelled.
  - apply single_labelled.
  - by apply buildNumbered_labelled.
Qed.

(** The labelling rule fixes the calls. *)
Lemma labelledInOrder_unique {A : Type} (mk : A → option nat → BuildCall) xs k1 k2 :
  labelledInOrder mk xs k1 → labelledInOrder mk xs k2 → k1 = k2.
Proof.
  intros (L1 & S1 & M1) (L2 & S2 & M2).
  destruct xs as [|x [|y xs]].
  - destruct k1, k2; done.
  - by rewrite (S1 x eq_refl), (S2 x eq_refl).
  - apply list_eq. intros i.
    destruct ((x :: y :: xs) !! i) as [z|] eqn:Hz.
    + rewrite (M1 ltac:(simpl; lia) i z Hz), (M2 ltac:(simpl; lia) i z Hz). done.
    + apply lookup_ge_None in Hz.
      rewrite (lookup_ge_None_2 k1), (lookup_ge_None_2 k2); [done|lia..].
Qed.

(** ** What [exit] leaves alone and what it appends *)

Lemma exit_inv {Numberer : Type} (ctx ctx' : Ctx Numberer) (c : Clause) :
  topClause ctx = Some c → exit ctx = Some ctx' →
  ∃ r, last (clauseStack ctx) = Some r ∧ heap ctx !! r = Some c ∧
    let s2 := logBuilds (logBuilds (spec ctx) (buildExamples c)) (buildNotes c) in
    let ns := exitAttributes s2 (node ctx) r c (inAlg ctx) (currentId ctx) in
    let s4 := exitOp ns.2 ns.1 c in
    node ctx' = ns.1
    ∧ spec ctx' =
        setBiblio s4 (add (s_biblio s4) (EntryClause (clauseEntry c)) (s_namespace s4))
    ∧ clauseStack ctx' = removelast (clauseStack ctx)
    ∧ heap ctx' = heap ctx.
Proof.
  unfold topClause, exit. intros Htop Hexit.
  destruct (last (clauseStack ctx)) as [r|]; [|done]. simpl in *.
  rewrite Htop in Hexit. simpl in Hexit.
  exists r. split; [done|]. split; [done|].
  destruct (exitAttributes _ _ _ _ _ _) as [n' s3] eqn:E.
  injection Hexit as <-. by simpl.
Qed.

Lemma exit_total {Numberer : Type} (ctx : Ctx Numberer) (c : Clause) :
  topClause ctx = Some c → is_Some (exit ctx).
Proof.
  unfold topClause, exit. intros Htop.
  destruct (last (clauseStack ctx)) as [r|]; [|done]. simpl in *.
  rewrite Htop. simpl. by destruct (exitAttributes _ _ _ _ _ _).
Qed.

Lemma exitAttributes_spec s n r c alg cur :
  let ns := exitAttributes s n r c alg cur in
  s_namespace ns.2 = s_namespace s ∧ s_biblio ns.2 = s_biblio s
  ∧ s_warnings ns.2 = s_warnings s ∧ s_builds ns.2 = s_builds s.
Proof. unfold exitAttributes. by destruct (0 <? _)%nat. Qed.

Lemma built_app s bs : built s (logBuilds s bs) = bs.
Proof. unfold built, logBuilds; simpl. by rewrite drop_app_length. Qed.

Lemma exitOp_builds s n c : s_builds (exitOp s n c) = s_builds s.
Proof.
  unfold exitOp. destruct (c_aoid c) as [a|]; [|done].
  destruct (JS.truthy _); [|done]. destruct (bool_decide _); [done|].
  by destruct (mixesCompletions _).
Qed.

Lemma exitOp_namespace s n c : s_namespace (exitOp s n c) = s_namespace s.
Proof.
  unfold exitOp. destruct (c_aoid c) as [a|]; [|done].
  destruct (JS.truthy _); [|done]. destruct (bool_decide _); [done|].
  by destruct (mixesCompletions _).
Qed.

(** C9: the exit of a clause builds a single note without label, two or more
    notes with the labels 1, 2, ... in declaration order and every editor
    note without label, and builds the examples by the same single/multiple
    rule on their own list. *)
Theorem exit_labels_notes_and_examples {Numberer : Type}
    (ctx : Ctx Numberer) (c : Clause) :
  topClause ctx = Some c →
  ∃ ctx' exampleCalls noteCalls,
    exit ctx = Some ctx'
    ∧ built (spec ctx) (spec ctx')
      = exampleCalls ++ noteCalls ++ ((λ n, BuildNote n None) <$> c_editorNotes c)
    ∧ labelledInOrder BuildExample (c_examples c) exampleCalls
    ∧ labelledInOrder BuildNote (c_notes c) noteCalls.
Proof.
  intros Htop. destruct (exit_total ctx c Htop) as [ctx' Hexit].
  destruct (exit_inv ctx ctx' c Htop Hexit) as (r & _ & _ & _ & Hs & _).
  destruct (buildNotes_labelled c) as (noteCalls & Hn & Hl).
  exists ctx', (buildExamples c), noteCalls.
  split; [done|]. split; [|split; [apply buildExamples_labelled | done]].
  rewrite Hs. unfold built. simpl. rewrite exitOp_builds.
  destruct (exitAttributes_spec
              (logBuilds (logBuilds (spec ctx) (buildExamples c)) (buildNotes c))
              (node ctx) r c (inAlg ctx) (currentId ctx)) as (_ & _ & _ & ->).
  simpl. rewrite <- Hn, <- app_assoc. by rewrite drop_app_length.
Qed.

(** ** The special-kind label *)





Lemma exit_top {Numberer : Type} (ctx ctx' : Ctx Numberer) :
  exit ctx = Some ctx' → ∃ c, topClause ctx = Some c.
Proof.
  unfold exit, topClause. destruct (last (clauseStack ctx)) as [r|]; [|done].
  simpl. destruct (heap ctx !! r) as [c|]; [eauto|done].
Qed.


(** ** Fields the structured header leaves alone *)

Section BuilderFacts.

Context {Numberer : Type}.
Variable next : Numberer → list Clause → DomNode → string * Numberer.
Variable Builder_init : Spec → DomNode → Spec.
Variable locate : Spec → DomNode → option HeaderLocation.
Variable parseH1 : string → ParseResult.
Variable TypeParser_parse : string → Ty + Thrown.
Variable offsetToLineAndColumn : string → nat → nat * nat.
Variable formatHeader : Spec → DomNode → ParseResult → FormattedHeader * Spec.
Variable parseStructuredHeaderDl : Spec → option string → DomNode → HeaderDl * Spec.
Variable formatPreamble : Spec → PreambleArgs → list DomNode * Spec.
Variable serialize : list DomNode → string.
Variable parseFragment : string → list DomNode.

Abbreviation compileSig :=
  (compileSignature TypeParser_parse offsetToLineAndColumn).
Abbreviation buildHeader :=
  (buildStructuredHeader locate parseH1 TypeParser_parse offsetToLineAndColumn
     formatHeader parseStructuredHeaderDl formatPreamble serialize parseFragment).
Abbreviation construct :=
  (newClause Builder_init locate parseH1 TypeParser_parse offsetToLineAndColumn
     formatHeader parseStructuredHeaderDl formatPreamble serialize parseFragment).
Abbreviation typeGrammarOnlyFails := (onlyParseErrors TypeParser_parse).
Abbreviation enterWith :=
  (enter next Builder_init locate parseH1 TypeParser_parse offsetToLineAndColumn
     formatHeader parseStructuredHeaderDl formatPreamble serialize parseFragment).

Lemma compileSignature_fields s this header src pr s1 this1 :
  compileSig s this header src pr = inl (s1, this1) →
  c_number this1 = c_number this ∧ c_aoid this1 = c_aoid this
  ∧ c_type this1 = c_type this.
Proof.
  unfold compileSignature. intros H.
  repeat case_match; simplify_eq; done.
Qed.


Lemma recordFields_fields r s this fields :
  let res := recordFields r s this fields in
  c_number res.2 = c_number this ∧ c_signature res.2 = c_signature this
  ∧ c_aoid res.2 = c_aoid this ∧ c_type res.2 = c_type this
  ∧ s_warnings res.1 = s_warnings s ∧ s_biblio res.1 = s_biblio s
  ∧ s_namespace res.1 = s_namespace s.
Proof. done. Qed.



(** ** The builder returns unless the type grammar throws something other
    than a [ParseError] *)

Lemma parseType_no_other t o :
  typeGrammarOnlyFails →
  parseType TypeParser_parse t o ≠ inr ThrownOther.
Proof.
  intros Hp. unfold parseType.
  destruct (TypeParser_parse t) as [ty|[msg off|]] eqn:E; [done..|].
  by apply Hp in E.
Qed.

Lemma compileParam_no_other p :
  typeGrammarOnlyFails → compileParam TypeParser_parse p ≠ inr ThrownOther.
Proof.
  intros Hp. unfold compileParam. destruct (pp_type p) as [t|]; [|done].
  pose proof (parseType_no_other t (pp_typeOffset p) Hp).
  by destruct (parseType _ _ _) as [ty|[msg off|]].
Qed.

Lemma compileParams_no_other ps :
  typeGrammarOnlyFails → compileParams TypeParser_parse ps ≠ inr ThrownOther.
Proof.
  intros Hp. induction ps as [|p ps IH]; simpl; [done|].
  pose proof (compileParam_no_other p Hp).
  destruct (compileParam _ p) as [q|[msg off|]]; [|done..].
  by destruct (compileParams _ ps) as [qs|[msg off|]].
Qed.

Lemma parsedHeaderToSignature_no_other h :
  typeGrammarOnlyFails → parsedHeaderToSignature TypeParser_parse h ≠ inr ThrownOther.
Proof.
  intros Hp. unfold parsedHeaderToSignature.
  pose proof (compileParams_no_other (filter notDeleted (ph_params h)) Hp).
  destruct (compileParams _ (filter notDeleted (ph_params h)))
    as [ps|[msg off|]]; [|done..].
  pose proof (compileParams_no_other (filter notDeleted (ph_optionalParams h)) Hp).
  destruct (compileParams _ (filter notDeleted (ph_optionalParams h)))
    as [os|[msg off|]]; [|done..].
  destruct (ph_returnType h) as [t|]; [|done].
  pose proof (parseType_no_other t (ph_returnOffset h) Hp).
  by destruct (parseType _ _ _) as [ty|[msg off|]].
Qed.

Lemma compileSignature_returns s this header src pr :
  typeGrammarOnlyFails → ∃ res, compileSig s this header src pr = inl res.
Proof.
  intros Hp. unfold compileSignature. destruct pr as [|h]; [eauto|].
  pose proof (parsedHeaderToSignature_no_other h Hp).
  destruct (parsedHeaderToSignature _ h) as [sg|[msg off|]]; [eauto| |done].
  destruct (offsetToLineAndColumn src off). eauto.
Qed.

Lemma buildStructuredHeader_returns r s n this site header :
  typeGrammarOnlyFails → ∃ res, buildHeader r s n this site header = inl res.
Proof.
  intros Hp. unfold buildStructuredHeader.
  destruct (extractStructuredHeader _) as [[[skipped dl] rest]|]; [|eauto].
  match goal with
  | |- context [compileSig ?a ?b ?c ?d ?e] =>
      destruct (compileSignature_returns a b c d e Hp) as [[s1 this1] ->]
  end.
  destruct (formatHeader _ _ _) as [fh s2].
  destruct (parseStructuredHeaderDl _ _ _) as [fields s4].
  destruct (formatPreamble _ _) as [paras s5].
  destruct (assignAoid _ _ _ _ _ _) as [[s6 n3] this2].
  simpl. eauto.
Qed.



(** ** Numbering of the introduction *)






End BuilderFacts.

(** ** The registry *)

Lemma entriesOf_add b e ns : entriesOf (add b e ns) ns = entriesOf b ns ++ [e].
Proof. unfold entriesOf at 1, add. simpl. by rewrite lookup_insert_eq. Qed.

Lemma entriesOf_add_ne b e ns ns' :
  ns ≠ ns' → entriesOf (add b e ns) ns' = entriesOf b ns'.
Proof. intros H. unfold entriesOf, add. simpl. by rewrite lookup_insert_ne. Qed.

Lemma keysForNamespace_add_op b o ns :
  keysForNamespace (add b (EntryOp o) ns) ns = keysForNamespace b ns ∪ {[oe_aoid o]}.
Proof.
  unfold keysForNamespace. rewrite entriesOf_add, omap_app, fmap_app, list_to_set_app_L.
  simpl. by rewrite (right_id_L ∅ (∪)).
Qed.

Lemma keysForNamespace_add_clause b c ns :
  keysForNamespace (add b (EntryClause c) ns) ns = keysForNamespace b ns.
Proof.
  unfold keysForNamespace. rewrite entriesOf_add, omap_app, fmap_app, list_to_set_app_L.
  simpl. by rewrite (right_id_L ∅ (∪)).
Qed.

Lemma addedEntries_app b b' ns es :
  entriesOf b' ns = entriesOf b ns ++ es → addedEntries b b' ns = es.
Proof. intros H. unfold addedEntries. by rewrite H, drop_app_length. Qed.

Lemma emitted_app s s' ws :
  s_warnings s' = s_warnings s ++ ws → emitted s s' = ws.
Proof. intros H. unfold emitted. by rewrite H, drop_app_length. Qed.

(** ** What one [exit] reports and registers *)

Lemma exitOp_outcome s n c :
  s_namespace (exitOp s n c) = s_namespace s
  ∧ b_parent (s_biblio (exitOp s n c)) = b_parent (s_biblio s)
  ∧ match opOutcome s c with
    | NoAoid => exitOp s n c = s
    | Duplicate a => exitOp s n c = warn s (duplicateDefinition n a)
    | Registered a =>
        s_warnings (exitOp s n c)
        = s_warnings s
          ++ (if mixesCompletions (c_signature c) then [completionUnion c] else [])
        ∧ s_biblio (exitOp s n c)
          = add (s_biblio s) (EntryOp (opEntry c a)) (s_namespace s)
    end.
Proof.
  unfold exitOp, opOutcome. destruct (c_aoid c) as [a|]; [|done].
  destruct (JS.truthy (Some a)); [|done].
  destruct (bool_decide _); [done|].
  destruct (mixesCompletions _); simpl; by rewrite ?app_nil_r.
Qed.

Lemma opOutcome_ext s1 s2 c :
  s_biblio s1 = s_biblio s2 → s_namespace s1 = s_namespace s2 →
  opOutcome s1 c = opOutcome s2 c.
Proof. unfold opOutcome. by intros -> ->. Qed.

Lemma exit_outcome {Numberer : Type} (ctx ctx' : Ctx Numberer) (c : Clause) :
  topClause ctx = Some c → exit ctx = Some ctx' →
  let s := spec ctx in
  let s' := spec ctx' in
  let ns := s_namespace s in
  s_namespace s' = ns
  ∧ (∀ ns', ns' ≠ ns → entriesOf (s_biblio s') ns' = entriesOf (s_biblio s) ns')
  ∧ match opOutcome s c with
    | NoAoid =>
        emitted s s' = []
        ∧ addedEntries (s_biblio s) (s_biblio s') ns = [EntryClause (clauseEntry c)]
    | Duplicate a =>
        emitted s s' = [duplicateDefinition (node ctx') a]
        ∧ addedEntries (s_biblio s) (s_biblio s') ns = [EntryClause (clauseEntry c)]
    | Registered a =>
        emitted s s'
        = (if mixesCompletions (c_signature c) then [completionUnion c] else [])
        ∧ addedEntries (s_biblio s) (s_biblio s') ns
          = [EntryOp (opEntry c a); EntryClause (clauseEntry c)]
    end.
Proof.
  intros Htop Hexit.
  destruct (exit_inv ctx ctx' c Htop Hexit) as (r & _ & _ & Hn & Hs & _).
  simpl in Hn, Hs.
  set (S2 := logBuilds (logBuilds (spec ctx) (buildExamples c)) (buildNotes c)) in *.
  destruct (exitAttributes_spec S2 (node ctx) r c (inAlg ctx) (currentId ctx))
    as (Hns & Hb & Hw & _).
  simpl in Hns, Hb, Hw.
  set (S3 := (exitAttributes S2 (node ctx) r c (inAlg ctx) (currentId ctx)).2) in *.
  rewrite <- Hn in Hs.
  destruct (exitOp_outcome S3 (node ctx') c) as (Hns4 & _ & Hout).
  rewrite (opOutcome_ext S3 (spec ctx) c Hb Hns) in Hout.
  simpl. rewrite Hs. simpl. rewrite Hns4, Hns. split; [done|]. split.
  - intros ns' Hne. rewrite entriesOf_add_ne by done.
    destruct (opOutcome (spec ctx) c) as [|a|a].
    + by rewrite Hout, Hb.
    + by rewrite Hout; simpl; rewrite Hb.
    + destruct Hout as [_ ->]. rewrite Hns, Hb. by rewrite entriesOf_add_ne.
  - destruct (opOutcome (spec ctx) c) as [|a|a].
    + rewrite Hout. split.
      * apply emitted_app. simpl. by rewrite Hw, app_nil_r.
      * apply addedEntries_app. by rewrite entriesOf_add, Hb.
    + rewrite Hout. simpl. split.
      * apply emitted_app. simpl. by rewrite Hw.
      * apply addedEntries_app. by rewrite entriesOf_add, Hb.
    + destruct Hout as [Hw4 Hb4]. split.
      * apply emitted_app. simpl. by rewrite Hw4, Hw.
      * apply addedEntries_app. rewrite Hb4, Hns, Hb.
        by rewrite !entriesOf_add, <- app_assoc.
Qed.

Lemma truthy_nonempty (a : string) : a ≠ "" → JS.truthy (Some a) = true.
Proof. by destruct a. Qed.

Lemma opOutcome_duplicate s c a :
  c_aoid c = Some a → a ≠ "" →
  a ∈ keysForNamespace (s_biblio s) (s_namespace s) →
  opOutcome s c = Duplicate a.
Proof.
  intros Ha Hne Hin. unfold opOutcome.
  by rewrite Ha, truthy_nonempty, bool_decide_true.
Qed.

Lemma opOutcome_registered s c a :
  c_aoid c = Some a → a ≠ "" →
  a ∉ keysForNamespace (s_biblio s) (s_namespace s) →
  opOutcome s c = Registered a.
Proof.
  intros Ha Hne Hin. unfold opOutcome.
  by rewrite Ha, truthy_nonempty, bool_decide_false.
Qed.

Lemma emittedFor_single rule s s' w :
  emitted s s' = [w] → ruleId w = rule → emittedFor rule s s' = [w].
Proof. intros H Hr. unfold emittedFor. rewrite H, filter_cons, decide_True; done. Qed.

Lemma emittedFor_other rule s s' w :
  emitted s s' = [w] → ruleId w ≠ rule → emittedFor rule s s' = [].
Proof. intros H Hr. unfold emittedFor. rewrite H, filter_cons, decide_False; done. Qed.

Lemma emittedFor_none rule s s' : emitted s s' = [] → emittedFor rule s s' = [].
Proof. intros H. unfold emittedFor. by rewrite H. Qed.

(** The diagnostics of one [exit] that carry the duplicate-definition rule,
    and the op entries it adds to the spec-level namespace, by what the
    spec-level namespace holds. *)
Lemma exit_op_in_spec_namespace {Numberer : Type} (ctx ctx' : Ctx Numberer)
    (c : Clause) (a : string) :
  topClause ctx = Some c → c_aoid c = Some a → a ≠ "" → exit ctx = Some ctx' →
  let s := spec ctx in
  let s' := spec ctx' in
  let ns := s_namespace s in
  (a ∈ keysForNamespace (s_biblio s) ns →
     emittedFor "duplicate-definition" s s' = [duplicateDefinition (node ctx') a]
     ∧ addedOps (s_biblio s) (s_biblio s') ns = []
     ∧ addedClauses (s_biblio s) (s_biblio s') ns = [clauseEntry c])
  ∧ (a ∉ keysForNamespace (s_biblio s) ns →
     emittedFor "duplicate-definition" s s' = []
     ∧ addedOps (s_biblio s) (s_biblio s') ns = [opEntry c a]
     ∧ addedClauses (s_biblio s) (s_biblio s') ns = [clauseEntry c])
  ∧ (∀ ns', ns' ≠ ns → entriesOf (s_biblio s') ns' = entriesOf (s_biblio s) ns').
Proof.
  intros Htop Ha Hne Hexit.
  destruct (exit_outcome ctx ctx' c Htop Hexit) as (_ & Hother & Hout).
  simpl. split; [|split; [|done]].
  - intros Hin. rewrite (opOutcome_duplicate _ _ a Ha Hne Hin) in Hout.
    destruct Hout as [Hw He]. unfold addedOps, addedClauses. rewrite He.
    split; [|done]. by apply emittedFor_single.
  - intros Hin. rewrite (opOutcome_registered _ _ a Ha Hne Hin) in Hout.
    destruct Hout as [Hw He]. unfold addedOps, addedClauses. rewrite He.
    split; [|done]. destruct (mixesCompletions _).
    + by apply (emittedFor_other _ _ _ _ Hw).
    + by apply emittedFor_none.
Qed.

(** C1 (amended): for a clause that has an aoid at exit, the duplicate check
    and the op entry use the spec-level namespace [spec.namespace], whatever
    the clause's own namespace is: the check looks at the aoid keys of the
    spec-level namespace, the op entry is appended there, and the entries of
    every other namespace stay as they were. *)
Theorem op_entry_goes_to_spec_namespace {Numberer : Type}
    (ctx : Ctx Numberer) (c : Clause) (a : string) :
  topClause ctx = Some c → c_aoid c = Some a → a ≠ "" →
  ∃ ctx',
    exit ctx = Some ctx'
    ∧ let s := spec ctx in
      let s' := spec ctx' in
      let ns := s_namespace s in
      (a ∈ keysForNamespace (s_biblio s) ns →
         emittedFor "duplicate-definition" s s' = [duplicateDefinition (node ctx') a]
         ∧ addedOps (s_biblio s) (s_biblio s') ns = [])
      ∧ (a ∉ keysForNamespace (s_biblio s) ns →
         emittedFor "duplicate-definition" s s' = []
         ∧ addedOps (s_biblio s) (s_biblio s') ns = [opEntry c a])
      ∧ (∀ ns', ns' ≠ ns → entriesOf (s_biblio s') ns' = entriesOf (s_biblio s) ns').
Proof.
  intros Htop Ha Hne. destruct (exit_total ctx c Htop) as [ctx' Hexit].
  exists ctx'. split; [done|].
  destruct (exit_op_in_spec_namespace ctx ctx' c a Htop Ha Hne Hexit)
    as (Hdup & Hfresh & Hother).
  simpl. split; [|split; [|done]].
  - intros Hin. by destruct (Hdup Hin) as (? & ? & _).
  - intros Hin. by destruct (Hfresh Hin) as (? & ? & _).
Qed.


(** ** Unions that mix completions *)

Lemma mixesCompletions_union sg ts :
  sig_return sg = Some (TyUnion ts) →
  (∃ t, t ∈ ts ∧ kind t = "completion") →
  (∃ t, t ∈ ts ∧ kind t ≠ "completion") →
  mixesCompletions (Some sg) = true.
Proof.
  intros Hr (t1 & Hin1 & Hk1) (t2 & Hin2 & Hk2).
  unfold mixesCompletions. rewrite Hr. apply andb_true_iff. split.
  - apply existsb_exists. exists t1. split; [by apply list_elem_of_In|].
    unfold isCompletion. by apply String.eqb_eq.
  - apply existsb_exists. exists t2. split; [by apply list_elem_of_In|].
    unfold isCompletion. simpl. apply negb_true_iff. by apply String.eqb_neq.
Qed.

(** C6 (amended): for a clause that has an aoid not yet registered in the
    spec-level namespace and whose compiled return type is a union with at
    least one completion member and at least one member that is not a
    completion, exit reports exactly one completion-union diagnostic and
    still adds the op entry, which carries the clause's signature. *)
Theorem completion_union_reported_once {Numberer : Type}
    (ctx : Ctx Numberer) (c : Clause) (a : string) (sg : Signature)
    (ts : list Ty) :
  topClause ctx = Some c → c_aoid c = Some a → a ≠ "" →
  a ∉ keysForNamespace (s_biblio (spec ctx)) (s_namespace (spec ctx)) →
  c_signature c = Some sg → sig_return sg = Some (TyUnion ts) →
  (∃ t, t ∈ ts ∧ kind t = "completion") →
  (∃ t, t ∈ ts ∧ kind t ≠ "completion") →
  ∃ ctx' op,
    exit ctx = Some ctx'
    ∧ emittedFor "completion-union" (spec ctx) (spec ctx') = [completionUnion c]
    ∧ addedOps (s_biblio (spec ctx)) (s_biblio (spec ctx')) (s_namespace (spec ctx))
      = [op]
    ∧ oe_aoid op = a ∧ oe_signature op = Some sg.
Proof.
  intros Htop Ha Hne Hfresh Hsg Hret Hcompl Hother.
  destruct (exit_total ctx c Htop) as [ctx' Hexit].
  exists ctx', (opEntry c a). split; [done|].
  destruct (exit_outcome ctx ctx' c Htop Hexit) as (_ & _ & Hout).
  rewrite (opOutcome_registered _ _ a Ha Hne Hfresh) in Hout.
  rewrite Hsg, (mixesCompletions_union sg ts Hret Hcompl Hother) in Hout.
  destruct Hout as [Hw He]. split.
  - by apply emittedFor_single.
  - unfold addedOps. rewrite He. by simpl.
Qed.

(** ** The aoid taken from a structured header *)

Lemma arrayIncludes_elem_of (xs : list string) (x : string) :
  arrayIncludes xs x = true ↔ x ∈ xs.
Proof.
  unfold arrayIncludes. rewrite existsb_exists. split.
  - intros (y & Hin & ->%String.eqb_eq). by apply list_elem_of_In.
  - intros Hin. exists x. split; [by apply list_elem_of_In | apply String.eqb_refl].
Qed.

Lemma lookupAttr_replaceAttr k v a : lookupAttr k (replaceAttr k v a) = Some v.
Proof.
  induction a as [|[k' v'] a IH]; simpl.
  - by rewrite String.eqb_refl.
  - destruct (String.eqb k' k) eqn:E; simpl; by rewrite E.
Qed.

Lemma getAttribute_setAttribute n k v :
  isElement n = true → getAttribute (setAttribute n k v) k = Some v.
Proof. destruct n; [done|]. intros _. apply lookupAttr_replaceAttr. Qed.

Lemma attributesOf_withChildNodes n k : attributesOf (withChildNodes n k) = attributesOf n.
Proof. by destruct n. Qed.


Lemma isElement_withChildNodes n k : isElement (withChildNodes n k) = isElement n.
Proof. by destruct n. Qed.

(** The clause may take its aoid from the header: no redefinition, no explicit
    aoid attribute, a parsed name and an algorithm-like kind. *)
Lemma assignAoid_assigned s n this nm t :
  hasAttribute n "aoid" = false → t ∈ aoidTypes →
  assignAoid s n this false (Some nm) (Some t)
  = (s, setAttribute n "aoid" nm, setAoid this (Some nm)).
Proof.
  intros Hattr Ht. unfold assignAoid. rewrite Hattr.
  by apply arrayIncludes_elem_of in Ht as ->.
Qed.

Lemma assignAoid_redundant s n this name type :
  hasAttribute n "aoid" = true →
  assignAoid s n this false name type = (warn s (redundantAoid n), n, this).
Proof. intros Hattr. unfold assignAoid. by rewrite Hattr. Qed.

Lemma assignAoid_untouched s n this redefinition name type :
  ¬ (redefinition = false ∧ hasAttribute n "aoid" = false
     ∧ ∃ nm t, name = Some nm ∧ type = Some t ∧ t ∈ aoidTypes) →
  (assignAoid s n this redefinition name type).1.2 = n
  ∧ (assignAoid s n this redefinition name type).2 = this.
Proof.
  intros Hno. unfold assignAoid.
  destruct redefinition; [done|].
  destruct (hasAttribute n "aoid") eqn:Hattr; [done|].
  destruct name as [nm|]; [|done]. destruct type as [t|]; [|done].
  destruct (arrayIncludes aoidTypes t) eqn:Ht; [|done].
  exfalso. apply Hno. split; [done|]. split; [done|].
  exists nm, t. by rewrite <- arrayIncludes_elem_of.
Qed.

Lemma assignAoid_quiet s n this redefinition name type :
  ¬ (redefinition = false ∧ hasAttribute n "aoid" = true) →
  (assignAoid s n this redefinition name type).1.1 = s.
Proof.
  intros Hno. unfold assignAoid.
  destruct redefinition; [done|].
  destruct (hasAttribute n "aoid") eqn:Hattr; [by destruct Hno|].
  by repeat case_match.
Qed.

Section StructuredHeader.

Variable locate : Spec → DomNode → option HeaderLocation.
Variable parseH1 : string → ParseResult.
Variable TypeParser_parse : string → Ty + Thrown.
Variable offsetToLineAndColumn : string → nat → nat * nat.
Variable formatHeader : Spec → DomNode → ParseResult → FormattedHeader * Spec.
Variable parseStructuredHeaderDl : Spec → option string → DomNode → HeaderDl * Spec.
Variable formatPreamble : Spec → PreambleArgs → list DomNode * Spec.
Variable serialize : list DomNode → string.
Variable parseFragment : string → list DomNode.

Abbreviation sourceOf := (headerSourceOf locate serialize).
Abbreviation compileSig := (compileSignature TypeParser_parse offsetToLineAndColumn).
Abbreviation render := (renderHeader serialize parseFragment).
Abbreviation buildHeader :=
  (buildStructuredHeader locate parseH1 TypeParser_parse offsetToLineAndColumn
     formatHeader parseStructuredHeaderDl formatPreamble serialize parseFragment).

(** The steps of [buildStructuredHeader] on a clause that has a structured
    header, with the intermediate results named. *)
Lemma buildStructuredHeader_inv r s n this site header skipped dl rest
    s' n' this' header' :
  extractStructuredHeader (hs_after site) = Some (skipped, dl, rest) →
  buildHeader r s n this site header = inl (s', n', this', header') →
  let type := c_type this in
  let src := sourceOf s header in
  let pr := parseH1 src in
  ∃ s1 this1 fh s2 fields s4 paras s5,
    compileSig s this header src pr = inl (s1, this1)
    ∧ formatHeader s1 header pr = (fh, s2)
    ∧ parseStructuredHeaderDl (checkNumericMethod s2 type (fh_name fh) header) type dl
      = (fields, s4)
    ∧ header' = render type (fh_formattedHeader fh) header
    ∧ let surrogate' := plugHeader (hs_surrogate site) header' in
      let n1 := plugSite n (hs_before site) surrogate' (hs_after site) in
      let n2 := plugSite n1 (hs_before site) surrogate' (skipped ++ paras ++ rest) in
      formatPreamble s4 (preambleArgs n1 dl type fh fields) = (paras, s5)
      ∧ let res := assignAoid s5 n2 this1 (dl_redefinition fields) (fh_name fh) type in
        n' = res.1.2
        ∧ s' = (recordFields r res.1.1 res.2 fields).1
        ∧ this' = (recordFields r res.1.1 res.2 fields).2.
Proof.
  unfold buildStructuredHeader. intros -> H. simpl.
  destruct (compileSig _ _ _ _ _) as [[s1 this1]|] eqn:Hc; [|done].
  destruct (formatHeader _ _ _) as [fh s2] eqn:Hf.
  destruct (parseStructuredHeaderDl _ _ _) as [fields s4] eqn:Hd.
  destruct (formatPreamble _ _) as [paras s5] eqn:Hp.
  exists s1, this1, fh, s2, fields, s4, paras, s5.
  do 3 (split; [done|]).
  destruct (assignAoid _ _ _ _ _ _) as [[s6 n3] this2] eqn:Ha.
  simpl in H. injection H as <- <- <- <-.
  split; [done|]. split; [done|]. by rewrite Ha.
Qed.

Lemma hasAttribute_plugSite n before surrogate after k :
  hasAttribute (plugSite n before surrogate after) k = hasAttribute n k.
Proof.
  unfold hasAttribute, getAttribute, plugSite. by rewrite attributesOf_withChildNodes.
Qed.

Lemma getAttribute_plugSite n before surrogate after k :
  getAttribute (plugSite n before surrogate after) k = getAttribute n k.
Proof. unfold getAttribute, plugSite. by rewrite attributesOf_withChildNodes. Qed.

(** C4: [buildStructuredHeader] on a clause with a structured header returns
    (unless the type grammar throws something other than a parse error), and
    after it the name parsed from the header is the clause's aoid (and the
    node's aoid attribute) exactly when the description list marks no
    redefinition, the node has no aoid attribute, the name is not null and
    the declared type is one of [aoidTypes]; otherwise aoid and attribute are
    as before.  A node that has an aoid attribute and is no redefinition
    gets one header-format diagnostic on that attribute at this step and
    keeps its aoid; in every other case the step reports nothing. *)
Theorem structured_header_aoid r s n this site header skipped dl rest :
  isElement n = true →
  extractStructuredHeader (hs_after site) = Some (skipped, dl, rest) →
  (onlyParseErrors TypeParser_parse →
   ∃ res, buildHeader r s n this site header = inl res)
  ∧ ∀ s' n' this' header',
      buildHeader r s n this site header = inl (s', n', this', header') →
      ∃ s1 s3 s4 args fh fields,
        fh = (formatHeader s1 header (parseH1 (sourceOf s header))).1
        ∧ fields = (parseStructuredHeaderDl s3 (c_type this) dl).1
        ∧ let s5 := (formatPreamble s4 args).2 in
          let eligible :=
            dl_redefinition fields = false ∧ hasAttribute n "aoid" = false
            ∧ ∃ nm t, fh_name fh = Some nm ∧ c_type this = Some t ∧ t ∈ aoidTypes in
          let redundant :=
            dl_redefinition fields = false ∧ hasAttribute n "aoid" = true in
          (eligible → c_aoid this' = fh_name fh ∧ getAttribute n' "aoid" = fh_name fh)
          ∧ (¬ eligible →
             c_aoid this' = c_aoid this
             ∧ getAttribute n' "aoid" = getAttribute n "aoid")
          ∧ (redundant →
             ∃ w, emitted s5 s' = [w] ∧ ruleId w = "header-format"
                  ∧ w_attr w = Some "aoid")
          ∧ (¬ redundant → emitted s5 s' = []).
Proof.
  intros Hel Hdl. split; [apply buildStructuredHeader_returns|].
  intros s' n' this' header' Hb.
  destruct (buildStructuredHeader_inv _ _ _ _ _ _ _ _ _ _ _ _ _ Hdl Hb)
    as (s1 & this1 & fh & s2 & fields & s4 & paras & s5 & Hc & Hf & Hd & Hh
        & Hp & Hn' & Hs' & Hthis').
  apply compileSignature_fields in Hc as (_ & Haoid1 & _).
  eexists s1, _, s4, _, fh, fields.
  split; [by rewrite Hf|]. split; [by rewrite Hd|].
  rewrite Hp. simpl.
  set (n2 := plugSite _ _ _ (skipped ++ paras ++ rest)) in *.
  assert (hasAttribute n2 "aoid" = hasAttribute n "aoid") as Hattr
    by (unfold n2; by rewrite !hasAttribute_plugSite).
  assert (getAttribute n2 "aoid" = getAttribute n "aoid") as Hget
    by (unfold n2; by rewrite !getAttribute_plugSite).
  assert (isElement n2 = true) as Hel2
    by (unfold n2, plugSite; by rewrite !isElement_withChildNodes).
  rewrite Hn', Hs', Hthis'. simpl. split; [|split; [|split]].
  - intros (Hred & Hno & nm & t & Hname & Htype & Ht).
    rewrite Hred, Hname, Htype, assignAoid_assigned by congruence.
    simpl. by rewrite getAttribute_setAttribute.
  - intros Hno.
    destruct (assignAoid_untouched s5 n2 this1 (dl_redefinition fields)
                (fh_name fh) (c_type this)) as [-> ->].
    { by rewrite Hattr. }
    by rewrite Hget.
  - intros [Hred Hhas]. rewrite Hred, assignAoid_redundant by congruence.
    simpl. exists (redundantAoid n2). split; [|done].
    by apply emitted_app.
  - intros Hno. rewrite assignAoid_quiet by (by rewrite Hattr).
    apply emitted_app. by rewrite app_nil_r.
Qed.



(** ** The rendered header of a syntax-directed operation *)

(** With the type [sdo] and a parenthesis in the header, the header is set
    to the text around the parameter list. *)
Lemma renderHeader_sdo formattedHeader header :
  JS.includes (default (innerHTML serialize header) formattedHeader) "(" = true →
  render (Some "sdo") formattedHeader header
  = trimSoleWrapper serialize parseFragment
      (setInnerHTML parseFragment header
         (stripParameterList (default (innerHTML serialize header) formattedHeader))).
Proof. intros H. unfold renderHeader. by rewrite H. Qed.

(** With any other type, the spelled-out kind included, the header is the
    formatted header, parameter list and all. *)
Lemma renderHeader_not_sdo type formattedHeader header :
  type ≠ Some "sdo" →
  render type formattedHeader header
  = match formattedHeader with
    | Some h => setInnerHTML parseFragment header h
    | None => header
    end.
Proof. intros H. unfold renderHeader. by rewrite bool_decide_false. Qed.

End StructuredHeader.

(** * The statements on concrete documents *)

(** C1 as stated fails: a clause of the namespace [inner] that declares the
    aoid [Foo] is entered and left; its op entry is added to the spec-level
    namespace [spec] and not to [inner], and when [inner] already has an op
    [Foo] (and [spec] has none) no duplicate is reported. *)
Lemma op_entry_not_in_clause_namespace :
  let ctx := Demo.at_node Demo.emptySpec Demo.namespaced [] [] in
  let ctx2 := Demo.at_node Demo.innerHasFoo Demo.namespaced [] [] in
  c_namespace <$> (Demo.entered ctx ≫= topClause) = Some "inner"
  ∧ c_aoid <$> (Demo.entered ctx ≫= topClause) = Some (Some "Foo")
  ∧ (λ ctx', oe_aoid <$> addedOps emptyBiblio (s_biblio (spec ctx')) "inner")
      <$> (Demo.entered ctx ≫= exit) = Some []
  ∧ (λ ctx', oe_aoid <$> addedOps emptyBiblio (s_biblio (spec ctx')) "spec")
      <$> (Demo.entered ctx ≫= exit) = Some ["Foo"]
  ∧ bool_decide ("Foo" ∈ keysForNamespace (s_biblio Demo.innerHasFoo) "inner") = true
  ∧ (λ ctx', ruleId <$> emitted Demo.innerHasFoo (spec ctx'))
      <$> (Demo.entered ctx2 ≫= exit) = Some []
  ∧ (λ ctx', oe_aoid <$> addedOps (s_biblio Demo.innerHasFoo) (s_biblio (spec ctx')) "inner")
      <$> (Demo.entered ctx2 ≫= exit) = Some [].
Proof. vm_compute. repeat split; reflexivity. Qed.

(** C6 as stated fails: a redefinition has a signature that returns a union
    of a completion and a non-completion but no aoid; exit reports no
    completion-union diagnostic and adds no op entry. *)
Lemma completion_union_unreported_without_aoid :
  let ctx := Demo.leaving Demo.redefinition in
  c_signature Demo.redefinition = Some Demo.mixedReturn
  ∧ sig_return Demo.mixedReturn
    = Some (TyUnion [TyCompletion (Some (TyOpaque "Number")); TyOpaque "Number"])
  ∧ (λ ctx', emittedFor "completion-union" (spec ctx) (spec ctx')) <$> exit ctx
    = Some []
  ∧ (λ ctx', addedOps emptyBiblio (s_biblio (spec ctx')) "spec") <$> exit ctx
    = Some [].
Proof. vm_compute. repeat split; reflexivity. Qed.

(** C3 on the code: the clause [Evaluation ( _a_ )] declared with the type
    [sdo] is rendered as [Evaluation]; declared with the type
    [syntax-directed operation] it keeps its parameter list, although [exit]
    registers both under the kind [syntax-directed operation]. *)
Theorem spelled_out_sdo_keeps_parameter_list :
  let short := Demo.entered (Demo.at_node Demo.emptySpec Demo.sdoShort [] []) in
  let long := Demo.entered (Demo.at_node Demo.emptySpec Demo.sdoLong [] []) in
  Demo.headerText <$> short = Some (Some "Evaluation")
  ∧ Demo.headerText <$> long = Some (Some "Evaluation ( _a_ )")
  ∧ (short ≫= topClause) ≫= opKind = Some "syntax-directed operation"
  ∧ (long ≫= topClause) ≫= opKind = Some "syntax-directed operation".
Proof. vm_compute. repeat split; reflexivity. Qed.

(** The amended C1 on the clause of the namespace [inner]. *)
Lemma op_entry_goes_to_spec_namespace_witness :
  let ctx := Demo.leavingNamespaced in
  let c := Demo.namespacedClause in
  (topClause ctx = Some c ∧ c_aoid c = Some "Foo" ∧ "Foo" ≠ "")
  ∧ ∃ ctx',
      exit ctx = Some ctx'
      ∧ let s := spec ctx in
        let s' := spec ctx' in
        let ns := s_namespace s in
        ("Foo" ∈ keysForNamespace (s_biblio s) ns →
           emittedFor "duplicate-definition" s s'
           = [duplicateDefinition (node ctx') "Foo"]
           ∧ addedOps (s_biblio s) (s_biblio s') ns = [])
        ∧ ("Foo" ∉ keysForNamespace (s_biblio s) ns →
           emittedFor "duplicate-definition" s s' = []
           ∧ addedOps (s_biblio s) (s_biblio s') ns = [opEntry c "Foo"])
        ∧ (∀ ns', ns' ≠ ns →
             entriesOf (s_biblio s') ns' = entriesOf (s_biblio s) ns').
Proof.
  split.
  - repeat split; try (vm_compute; reflexivity). discriminate.
  - apply (op_entry_goes_to_spec_namespace Demo.leavingNamespaced
             Demo.namespacedClause "Foo").
    + vm_compute; reflexivity.
    + vm_compute; reflexivity.
    + discriminate.
Defined.


(** The amended C6 on an operation that returns
    [a Completion Record | a Number]. *)
Lemma completion_union_reported_once_witness :
  let ctx := Demo.leaving Demo.operation in
  (topClause ctx = Some Demo.operation ∧ c_aoid Demo.operation = Some "Op"
   ∧ "Op" ≠ ""
   ∧ ("Op" ∉ keysForNamespace (s_biblio (spec ctx)) (s_namespace (spec ctx)))
   ∧ c_signature Demo.operation = Some Demo.mixedReturn
   ∧ sig_return Demo.mixedReturn
     = Some (TyUnion [TyCompletion (Some (TyOpaque "Number")); TyOpaque "Number"]))
  ∧ ∃ ctx' op,
      exit ctx = Some ctx'
      ∧ emittedFor "completion-union" (spec ctx) (spec ctx')
        = [completionUnion Demo.operation]
      ∧ addedOps (s_biblio (spec ctx)) (s_biblio (spec ctx')) (s_namespace (spec ctx))
        = [op]
      ∧ oe_aoid op = "Op" ∧ oe_signature op = Some Demo.mixedReturn.
Proof.
  assert ("Op" ∉ keysForNamespace (s_biblio (spec (Demo.leaving Demo.operation)))
                   (s_namespace (spec (Demo.leaving Demo.operation)))) as Hfresh.
  { apply (bool_decide_unpack _). vm_compute. exact I. }
  split.
  - repeat split; try (vm_compute; reflexivity); [discriminate | exact Hfresh].
  - apply (completion_union_reported_once (Demo.leaving Demo.operation)
             Demo.operation "Op" Demo.mixedReturn
             [TyCompletion (Some (TyOpaque "Number")); TyOpaque "Number"]);
      try (vm_compute; reflexivity).
    + discriminate.
    + exact Hfresh.
    + exists (TyCompletion (Some (TyOpaque "Number"))). split; [left | reflexivity].
    + exists (TyOpaque "Number"). split; [right; left | discriminate].
Defined.

(** C7 on two titles. *)
Lemma static_semantics_cannot_run_user_code_witness :
  let static := Demo.clause "Static Semantics: Early Errors" "spec" None None None in
  let runtime := Demo.clause "Runtime Semantics: Evaluation" "spec" None None None in
  (titleBeginsWith static "Static Semantics:"
   ∧ ¬ titleBeginsWith runtime "Static Semantics:")
  ∧ canHaveEffect static "user-code" = false
  ∧ canHaveEffect runtime "user-code" = true.
Proof.
  assert (titleBeginsWith
            (Demo.clause "Static Semantics: Early Errors" "spec" None None None)
            "Static Semantics:") as Hs.
  { exists "Static Semantics: Early Errors", " Early Errors". split; reflexivity. }
  assert (¬ titleBeginsWith
              (Demo.clause "Runtime Semantics: Evaluation" "spec" None None None)
              "Static Semantics:") as Hr.
  { intros (t & rest & Ht & Hp). injection Ht as <-. discriminate Hp. }
  split; [split; assumption|]. split.
  - exact (proj1 (static_semantics_cannot_run_user_code _) Hs).
  - exact (proj2 (static_semantics_cannot_run_user_code _) Hr).
Defined.

(** C4 on the abstract operation [Foo ( _a_ )]: it takes the aoid [Foo]. *)
Lemma structured_header_aoid_witness :
  let text := "Foo ( _a_ )" in
  let n := Demo.abstractOperation text in
  let this := Demo.fresh in
  let header := Demo.h1 text in
  (isElement n = true
   ∧ extractStructuredHeader (hs_after (Demo.site text)) = Some ([], Demo.dl, [])
   ∧ onlyParseErrors Demo.TypeParser_parse
   ∧ Demo.buildStructuredHeader 0%nat Demo.emptySpec n this (Demo.site text) header
     = inl (Demo.builtHeader text)
   ∧ c_aoid (Demo.builtHeader text).1.2 = Some "Foo")
  ∧ (onlyParseErrors Demo.TypeParser_parse →
     ∃ res, Demo.buildStructuredHeader 0%nat Demo.emptySpec n this (Demo.site text)
              header = inl res)
  ∧ ∀ s' n' this' header',
      Demo.buildStructuredHeader 0%nat Demo.emptySpec n this (Demo.site text) header
      = inl (s', n', this', header') →
      ∃ s1 s3 s4 args fh fields,
        fh = (Demo.formatHeader s1 header
                (Demo.parseH1
                   (headerSourceOf Demo.locate Demo.serialize Demo.emptySpec header))).1
        ∧ fields = (Demo.parseStructuredHeaderDl s3 (c_type this) Demo.dl).1
        ∧ let s5 := (Demo.formatPreamble s4 args).2 in
          let eligible :=
            dl_redefinition fields = false ∧ hasAttribute n "aoid" = false
            ∧ ∃ nm t, fh_name fh = Some nm ∧ c_type this = Some t ∧ t ∈ aoidTypes in
          let redundant :=
            dl_redefinition fields = false ∧ hasAttribute n "aoid" = true in
          (eligible → c_aoid this' = fh_name fh ∧ getAttribute n' "aoid" = fh_name fh)
          ∧ (¬ eligible →
             c_aoid this' = c_aoid this
             ∧ getAttribute n' "aoid" = getAttribute n "aoid")
          ∧ (redundant →
             ∃ w, emitted s5 s' = [w] ∧ ruleId w = "header-format"
                  ∧ w_attr w = Some "aoid")
          ∧ (¬ redundant → emitted s5 s' = []).
Proof.
  split.
  - repeat split; try (vm_compute; reflexivity). intros t. discriminate.
  - apply (structured_header_aoid Demo.locate Demo.parseH1 Demo.TypeParser_parse
             Demo.offsetToLineAndColumn Demo.formatHeader
             Demo.parseStructuredHeaderDl Demo.formatPreamble Demo.serialize
             Demo.parseFragment 0%nat Demo.emptySpec
             (Demo.abstractOperation "Foo ( _a_ )") Demo.fresh
             (Demo.site "Foo ( _a_ )") (Demo.h1 "Foo ( _a_ )") [] Demo.dl []);
      vm_compute; reflexivity.
Defined.



(** C9 on a clause with two notes, one editor note and one example. *)
Lemma exit_labels_notes_and_examples_witness :
  let ctx := Demo.leaving Demo.annotated in
  let c := Demo.annotated in
  (topClause ctx = Some c
   ∧ built (spec ctx) (spec (Demo.exited ctx))
     = [BuildExample {| example_id := "x1" |} None;
        BuildNote {| note_id := "n1" |} (Some 1%nat);
        BuildNote {| note_id := "n2" |} (Some 2%nat);
        BuildNote {| note_id := "e1" |} None])
  ∧ ∃ ctx' exampleCalls noteCalls,
      exit ctx = Some ctx'
      ∧ built (spec ctx) (spec ctx')
        = exampleCalls ++ noteCalls ++ ((λ n, BuildNote n None) <$> c_editorNotes c)
      ∧ labelledInOrder BuildExample (c_examples c) exampleCalls
      ∧ labelledInOrder BuildNote (c_notes c) noteCalls.
Proof.
  split.
  - repeat split; vm_compute; reflexivity.
  - apply (exit_labels_notes_and_examples (Demo.leaving Demo.annotated)
             Demo.annotated).
    vm_compute; reflexivity.
Defined.


(** * Further properties of the module *)

(** ** What [exit] appends to the registry *)

Lemma exitAttributes_textNodes_other s n r c alg cur ns :
  ns ≠ c_namespace c →
  s_textNodes (exitAttributes s n r c alg cur).2 !! ns = s_textNodes s !! ns.
Proof.
  intros Hne. unfold exitAttributes. destruct (0 <? _)%nat; [|done].
  simpl. by rewrite lookup_insert_ne.
Qed.

Lemma exitOp_textNodes s n c : s_textNodes (exitOp s n c) = s_textNodes s.
Proof.
  unfold exitOp. destruct (c_aoid c) as [a|]; [|done].
  destruct (JS.truthy _); [|done]. destruct (bool_decide _); [done|].
  by destruct (mixesCompletions _).
Qed.

Lemma exit_registry {Numberer : Type} (ctx : Ctx Numberer) (c : Clause) :
  topClause ctx = Some c →
  ∃ ctx',
    exit ctx = Some ctx'
    ∧ entriesOf (s_biblio (spec ctx')) (s_namespace (spec ctx))
      = entriesOf (s_biblio (spec ctx)) (s_namespace (spec ctx))
        ++ (EntryOp <$> registeredOps (spec ctx) c) ++ [EntryClause (clauseEntry c)]
    ∧ (∀ ns, ns ≠ s_namespace (spec ctx) →
         entriesOf (s_biblio (spec ctx')) ns = entriesOf (s_biblio (spec ctx)) ns)
    ∧ b_parent (s_biblio (spec ctx')) = b_parent (s_biblio (spec ctx))
    ∧ s_namespace (spec ctx') = s_namespace (spec ctx).
Proof.
  intros Htop. destruct (exit_total ctx c Htop) as [ctx' Hexit].
  destruct (exit_inv ctx ctx' c Htop Hexit) as (r & _ & _ & Hn & Hs & _).
  simpl in Hn, Hs.
  set (S2 := logBuilds (logBuilds (spec ctx) (buildExamples c)) (buildNotes c)) in *.
  destruct (exitAttributes_spec S2 (node ctx) r c (inAlg ctx) (currentId ctx))
    as (Hns & Hb & _ & _).
  simpl in Hns, Hb.
  set (S3 := (exitAttributes S2 (node ctx) r c (inAlg ctx) (currentId ctx)).2) in *.
  rewrite <- Hn in Hs.
  destruct (exitOp_outcome S3 (node ctx') c) as (Hns4 & Hpar & Hout).
  exists ctx'. split; [done|]. rewrite Hs. simpl. rewrite Hns4, Hns.
  unfold registeredOps. rewrite <- (opOutcome_ext S3 (spec ctx) c Hb Hns).
  destruct (opOutcome S3 c) as [|a|a]; simpl.
  - rewrite Hout, Hb. split; [by rewrite entriesOf_add|].
    split; [|done]. intros ns Hne. by rewrite entriesOf_add_ne.
  - rewrite Hout. simpl. rewrite Hb.
    split; [by rewrite entriesOf_add|]. split; [|done].
    intros ns Hne. by rewrite entriesOf_add_ne.
  - destruct Hout as [_ Hb4]. rewrite Hb4, Hns, Hb.
    split; [by rewrite !entriesOf_add, <- app_assoc|]. split; [|done].
    intros ns Hne. by rewrite !entriesOf_add_ne.
Qed.

Lemma registeredOps_cases s c :
  registeredOps s c = []
  ∨ ∃ a, registeredOps s c = [opEntry c a] ∧ c_aoid c = Some a ∧ a ≠ ""
         ∧ a ∉ keysForNamespace (s_biblio s) (s_namespace s).
Proof.
  unfold registeredOps, opOutcome. destruct (c_aoid c) as [a|]; [|by left].
  destruct a as [|ch a]; [by left|]. simpl.
  destruct (bool_decide _) eqn:E; [by left|].
  right. exists (String ch a). apply bool_decide_eq_false in E. done.
Qed.


Lemma omap_opOf_entries (ops : list OpBiblioEntry) (ce : ClauseBiblioEntry) :
  omap opOf ((EntryOp <$> ops) ++ [EntryClause ce]) = ops.
Proof.
  induction ops as [|o ops IH]; simpl; [done|]. by f_equal.
Qed.

Lemma exit_addedOps {Numberer : Type} (ctx : Ctx Numberer) (c : Clause) :
  topClause ctx = Some c →
  ∃ ctx',
    exit ctx = Some ctx'
    ∧ addedOps (s_biblio (spec ctx)) (s_biblio (spec ctx')) (s_namespace (spec ctx))
      = registeredOps (spec ctx) c
    ∧ keysForNamespace (s_biblio (spec ctx')) (s_namespace (spec ctx))
      = keysForNamespace (s_biblio (spec ctx)) (s_namespace (spec ctx))
        ∪ list_to_set (oe_aoid <$> registeredOps (spec ctx) c).
Proof.
  intros Htop.
  destruct (exit_registry ctx c Htop) as (ctx' & Hexit & Hns & _).
  exists ctx'. split; [done|]. split.
  - unfold addedOps. rewrite (addedEntries_app _ _ _ _ Hns).
    apply omap_opOf_entries.
  - unfold keysForNamespace. rewrite Hns, omap_app, fmap_app, list_to_set_app_L.
    by rewrite omap_opOf_entries.
Qed.

Lemma opKind_cases (c : Clause) :
  match opKind c with
  | Some k =>
      k ∈ aoidTypes ∧ k ≠ "sdo"
      ∧ (c_type c = Some k ∨ (c_type c = Some "sdo" ∧ k = "syntax-directed operation"))
  | None => ∀ t, c_type c = Some t → t ∉ aoidTypes
  end.
Proof.
  unfold opKind. destruct (c_type c) as [t|]; [|done].
  destruct (arrayIncludes aoidTypes t) eqn:E.
  - apply arrayIncludes_elem_of in E.
    destruct (String.eqb t "sdo") eqn:Es.
    + apply String.eqb_eq in Es as ->. split; [|split; [done|by right]].
      unfold aoidTypes. do 2 right. left.
    + apply String.eqb_neq in Es. split; [done|]. split; [done|by left].
  - intros t' [= <-] Hin. apply arrayIncludes_elem_of in Hin. congruence.
Qed.

(** The kind of an op entry that exit adds is never the abbreviation [sdo]:
    it is one of [aoidTypes], namely the declared type or, for [sdo], the
    spelled-out [syntax-directed operation]; it is absent exactly when the
    declared type is none of [aoidTypes]. *)
Theorem exit_spells_out_op_kind {Numberer : Type}
    (ctx : Ctx Numberer) (c : Clause) :
  topClause ctx = Some c →
  ∃ ctx',
    exit ctx = Some ctx'
    ∧ ∀ op,
        op ∈ addedOps (s_biblio (spec ctx)) (s_biblio (spec ctx'))
               (s_namespace (spec ctx)) →
        oe_kind op ≠ Some "sdo"
        ∧ (∀ k, oe_kind op = Some k →
             k ∈ aoidTypes
             ∧ (c_type c = Some k
                ∨ (c_type c = Some "sdo" ∧ k = "syntax-directed operation")))
        ∧ (oe_kind op = None → ∀ t, c_type c = Some t → t ∉ aoidTypes).
Proof.
  intros Htop. destruct (exit_addedOps ctx c Htop) as (ctx' & Hexit & Hops & _).
  exists ctx'. split; [done|]. intros op. rewrite Hops.
  destruct (registeredOps_cases (spec ctx) c) as [->|(a & -> & _)].
  - by intros ?%elem_of_nil.
  - intros ->%list_elem_of_singleton. simpl.
    pose proof (opKind_cases c) as Hk. destruct (opKind c) as [k|].
    + destruct Hk as (Hin & Hne & Hty). split; [congruence|].
      split; [|done]. by intros k' [= <-].
    + split; [done|]. split; [done|]. by intros _.
Qed.

(** Exit makes the clause's aoid, when it is not empty, a key of the
    spec-level namespace (it may have been one already) and changes no other
    key; a clause without aoid, or with the empty aoid, leaves the keys as
    they were. *)
Theorem exit_registers_the_aoid {Numberer : Type}
    (ctx : Ctx Numberer) (c : Clause) :
  topClause ctx = Some c →
  ∃ ctx',
    exit ctx = Some ctx'
    ∧ keysForNamespace (s_biblio (spec ctx')) (s_namespace (spec ctx))
      = keysForNamespace (s_biblio (spec ctx)) (s_namespace (spec ctx))
        ∪ match c_aoid c with
          | Some (String ch a) => {[String ch a]}
          | _ => ∅
          end.
Proof.
  intros Htop. destruct (exit_addedOps ctx c Htop) as (ctx' & Hexit & _ & Hkeys).
  exists ctx'. split; [done|]. rewrite Hkeys.
  unfold registeredOps, opOutcome. destruct (c_aoid c) as [[|ch a]|]; [done| |done].
  simpl. destruct (bool_decide _) eqn:E; simpl.
  - apply bool_decide_eq_true in E. rewrite (right_id_L ∅ (∪)).
    apply set_eq. intros x. rewrite elem_of_union, elem_of_singleton.
    split; [by left | by intros [?| ->]].
  - by rewrite (right_id_L ∅ (∪) {[_]}).
Qed.

(** One exit reports at most one diagnostic, a duplicate definition or a
    completion union; a reported duplicate means that no op entry was added,
    and a clause without aoid (or with the empty aoid) reports nothing and
    adds no op entry. *)
Theorem exit_reports_at_most_once {Numberer : Type}
    (ctx : Ctx Numberer) (c : Clause) :
  topClause ctx = Some c →
  ∃ ctx',
    exit ctx = Some ctx'
    ∧ let ws := emitted (spec ctx) (spec ctx') in
      let ops := addedOps (s_biblio (spec ctx)) (s_biblio (spec ctx'))
                   (s_namespace (spec ctx)) in
      (length ws ≤ 1)%nat
      ∧ (∀ w, w ∈ ws →
           w_type w = "node"
           ∧ (ruleId w = "duplicate-definition" ∧ ops = []
              ∨ ruleId w = "completion-union" ∧ length ops = 1%nat))
      ∧ (JS.truthy (c_aoid c) = false → ws = [] ∧ ops = []).
Proof.
  intros Htop. destruct (exit_total ctx c Htop) as [ctx' Hexit].
  exists ctx'. split; [done|].
  destruct (exit_outcome ctx ctx' c Htop Hexit) as (_ & _ & Hout).
  simpl. unfold addedOps. unfold opOutcome in Hout.
  destruct (c_aoid c) as [[|ch a]|]; simpl in *.
  - destruct Hout as [-> ->]. split; [simpl; lia|].
    split; [by intros w ?%elem_of_nil | done].
  - destruct (bool_decide _).
    + destruct Hout as [-> ->]. split; [simpl; lia|]. split; [|done].
      intros w ->%list_elem_of_singleton. split; [done|]. by left.
    + destruct Hout as [-> ->]. destruct (mixesCompletions _).
      * split; [simpl; lia|]. split; [|done].
        intros w ->%list_elem_of_singleton. split; [done|]. by right.
      * split; [simpl; lia|]. split; [|done]. by intros w ?%elem_of_nil.
  - destruct Hout as [-> ->]. split; [simpl; lia|].
    split; [by intros w ?%elem_of_nil | done].
Qed.

Lemma exitAttributes_queue s n r c alg cur :
  default [] (s_textNodes (exitAttributes s n r c alg cur).2 !! c_namespace c)
  = default [] (s_textNodes s !! c_namespace c)
    ++ match labelFor n with
       | Some text =>
           [{| tn_node := TextNode text; tn_clause := r; tn_inAlg := alg;
               tn_currentId := cur |}]
       | None => []
       end.
Proof.
  unfold exitAttributes, specialKindAttributes, labelFor, expectedLabel.
  unfold SPECIAL_KINDS, SPECIAL_KINDS_MAP. simpl.
  rewrite !filter_cons, filter_nil.
  destruct (hasAttribute n "normative-optional"),
    (hasAttribute n "legacy"), (hasAttribute n "deprecated");
    repeat case_decide; try done; simpl;
    rewrite ?lookup_insert_eq, ?app_nil_r; done.
Qed.

(** The text of the special-kind label is queued for autolinking under the
    clause's own namespace (not the spec-level one), after what was queued
    there, with the clause and the traversal's [inAlg] and [currentId]; the
    queues of all other namespaces stay as they were, and without label
    nothing is queued. *)
Theorem exit_queues_label_in_clause_namespace {Numberer : Type}
    (ctx : Ctx Numberer) (c : Clause) (r : ClauseRef) :
  topClause ctx = Some c → last (clauseStack ctx) = Some r →
  ∃ ctx',
    exit ctx = Some ctx'
    ∧ default [] (s_textNodes (spec ctx') !! c_namespace c)
      = default [] (s_textNodes (spec ctx) !! c_namespace c)
        ++ match labelFor (node ctx) with
           | Some text =>
               [{| tn_node := TextNode text; tn_clause := r;
                   tn_inAlg := inAlg ctx; tn_currentId := currentId ctx |}]
           | None => []
           end
    ∧ ∀ ns, ns ≠ c_namespace c →
        s_textNodes (spec ctx') !! ns = s_textNodes (spec ctx) !! ns.
Proof.
  intros Htop Hlast. destruct (exit_total ctx c Htop) as [ctx' Hexit].
  destruct (exit_inv ctx ctx' c Htop Hexit) as (r' & Hlast' & _ & _ & Hs & _).
  assert (r' = r) as -> by congruence.
  exists ctx'. split; [done|]. rewrite Hs. simpl. rewrite exitOp_textNodes.
  split.
  - by rewrite exitAttributes_queue.
  - intros ns Hne. by rewrite exitAttributes_textNodes_other.
Qed.

(** ** What the constructor fixes and the structured header leaves alone *)

Lemma sameNode_refl c : sameNode c c.
Proof. by repeat split. Qed.

Lemma sameNode_trans c1 c2 c3 : sameNode c1 c2 → sameNode c2 c3 → sameNode c1 c3.
Proof. unfold sameNode. intros H1 H2. destruct_and!. repeat split; congruence. Qed.

Lemma assignAoid_sameNode s n this redefinition name type :
  sameNode this (assignAoid s n this redefinition name type).2.
Proof. unfold assignAoid. repeat case_match; by repeat split. Qed.

Section EnterFacts.

Context {Numberer : Type}.
Variable next : Numberer → list Clause → DomNode → string * Numberer.
Variable Builder_init : Spec → DomNode → Spec.
Variable locate : Spec → DomNode → option HeaderLocation.
Variable parseH1 : string → ParseResult.
Variable TypeParser_parse : string → Ty + Thrown.
Variable offsetToLineAndColumn : string → nat → nat * nat.
Variable formatHeader : Spec → DomNode → ParseResult → FormattedHeader * Spec.
Variable parseStructuredHeaderDl : Spec → option string → DomNode → HeaderDl * Spec.
Variable formatPreamble : Spec → PreambleArgs → list DomNode * Spec.
Variable serialize : list DomNode → string.
Variable parseFragment : string → list DomNode.

Abbreviation compileSig := (compileSignature TypeParser_parse offsetToLineAndColumn).
Abbreviation render := (renderHeader serialize parseFragment).
Abbreviation buildHeader :=
  (buildStructuredHeader locate parseH1 TypeParser_parse offsetToLineAndColumn
     formatHeader parseStructuredHeaderDl formatPreamble serialize parseFragment).
Abbreviation construct :=
  (newClause Builder_init locate parseH1 TypeParser_parse offsetToLineAndColumn
     formatHeader parseStructuredHeaderDl formatPreamble serialize parseFragment).
Abbreviation enterWith :=
  (enter next Builder_init locate parseH1 TypeParser_parse offsetToLineAndColumn
     formatHeader parseStructuredHeaderDl formatPreamble serialize parseFragment).

Lemma compileSignature_sameNode s this header src pr s1 this1 :
  compileSig s this header src pr = inl (s1, this1) →
  sameNode this this1 ∧ c_aoid this1 = c_aoid this
  ∧ c_effects this1 = c_effects this ∧ c_header this1 = c_header this.
Proof.
  unfold compileSignature. intros H.
  repeat case_match; simplify_eq; by repeat split.
Qed.

Lemma buildStructuredHeader_sameNode r s n this site header s' n' this' header' :
  buildHeader r s n this site header = inl (s', n', this', header') →
  sameNode this this' ∧ c_header this' = c_header this.
Proof.
  unfold buildStructuredHeader. intros H.
  destruct (extractStructuredHeader _) as [[[skipped dl] rest]|];
    [|simplify_eq; split; [apply sameNode_refl | done]].
  destruct (compileSig _ _ _ _ _) as [[s1 this1]|] eqn:Hc; [|done].
  apply compileSignature_sameNode in Hc as (Hsame1 & _ & _ & Hh1).
  destruct (formatHeader _ _ _) as [fh s2].
  destruct (parseStructuredHeaderDl _ _ _) as [fields s4].
  destruct (formatPreamble _ _) as [paras s5].
  match type of H with
  | context [assignAoid ?a ?b ?c ?d ?e ?f] =>
      pose proof (assignAoid_sameNode a b c d e f) as Hsame2;
      assert (c_header (assignAoid a b c d e f).2 = c_header c) as Hh2
        by (unfold assignAoid; by repeat case_match);
      destruct (assignAoid a b c d e f) as [[s6 n3] this2]
  end.
  simpl in *. simplify_eq. split.
  - eapply sameNode_trans; [exact Hsame1|].
    eapply sameNode_trans; [exact Hsame2|]. by repeat split.
  - simpl. congruence.
Qed.

(** The header element keeps its tag through rendering. *)
Lemma renderHeader_nodeName type formattedHeader header :
  nodeName (render type formattedHeader header) = nodeName header.
Proof.
  unfold renderHeader, trimSoleWrapper, setInnerHTML.
  repeat case_match; by destruct header.
Qed.

Lemma buildStructuredHeader_header r s n this site header s' n' this' header' :
  buildHeader r s n this site header = inl (s', n', this', header') →
  nodeName header' = nodeName header.
Proof.
  unfold buildStructuredHeader. intros H.
  destruct (extractStructuredHeader _) as [[[skipped dl] rest]|];
    [|by simplify_eq].
  destruct (compileSig _ _ _ _ _) as [[s1 this1]|]; [|done].
  destruct (formatHeader _ _ _) as [fh s2].
  destruct (parseStructuredHeaderDl _ _ _) as [fields s4].
  destruct (formatPreamble _ _) as [paras s5].
  destruct (assignAoid _ _ _ _ _ _) as [[s6 n3] this2].
  simpl in H. injection H as _ _ _ <-. apply renderHeader_nodeName.
Qed.

(** The namespace that encloses a new clause: that of its parent, or the
    spec's. *)
Lemma newClause_fields s hp n parent number r s' n' c :
  construct s hp n parent number r = inl (s', n', c) →
  c_id c = getAttribute n "id" ∧ c_parentClause c = parent
  ∧ c_subclauses c = [] ∧ c_number c = number
  ∧ c_notes c = [] ∧ c_editorNotes c = [] ∧ c_examples c = []
  ∧ c_isAnnex c = String.eqb (nodeName n) "EMU-ANNEX"
  ∧ c_isBackMatter c
    = (String.eqb (nodeName n) "EMU-ANNEX" && hasAttribute n "back-matter")
  ∧ c_isNormative c
    = (negb (String.eqb (nodeName n) "EMU-ANNEX") || hasAttribute n "normative")
  ∧ c_type c = match getAttribute n "type" with
               | Some EmptyString => None
               | t => t
               end
  ∧ c_namespace c
    = default (match parent ≫= (λ p, hp !! p) with
               | Some p => c_namespace p
               | None => s_namespace (Builder_init s n)
               end) (getAttribute n "namespace")
  ∧ (c_header c = None → c_title c = Some "UNKNOWN" ∧ c_titleHTML c = Some "UNKNOWN")
  ∧ (∀ h, c_header c = Some h → nodeName h = "H1" ∧ c_title c = None).
Proof.
  unfold newClause. intros H.
  destruct (getAttribute n "namespace") as [ns|];
    (destruct (traverseSiblings _ _ _) as [[[before header] after]|];
     [destruct (traverseOnceDown _ _) as [h1|];
      [destruct (String.eqb (nodeName h1) "H1") eqn:Eh;
       [ match type of H with
         | context [buildHeader ?a ?b ?c ?d ?e ?f] =>
             destruct (buildHeader a b c d e f)
               as [[[[s2 n2] this2] h2]|] eqn:Hb; [|done]
         end;
         pose proof (buildStructuredHeader_header _ _ _ _ _ _ _ _ _ _ Hb) as Hname;
         apply buildStructuredHeader_sameNode in Hb as [Hsame _];
         unfold sameNode in Hsame; simpl in Hsame; destruct_and!;
         simplify_eq; simpl; repeat split; try done;
         simplify_eq; rewrite Hname; by apply String.eqb_eq
       | simplify_eq; simpl; by repeat split ]
      | simplify_eq; simpl; by repeat split ]
     | simplify_eq; simpl; by repeat split ]).
Qed.

(** ** What [enter] does to the stack and the heap *)

Lemma enter_inv (ctx ctx' : Ctx Numberer) :
  enterWith ctx = inl ctx' →
  ∃ s0 s1 c number,
    newClause Builder_init locate parseH1 TypeParser_parse offsetToLineAndColumn
      formatHeader parseStructuredHeaderDl formatPreamble serialize parseFragment
      s0 (heap ctx) (node ctx) (last (clauseStack ctx)) number (length (heap ctx))
    = inl (s1, node ctx', c)
    ∧ (number, clauseNumberer ctx')
      = (if String.eqb (nodeName (node ctx)) "EMU-INTRO"
         then (EmptyString, clauseNumberer ctx)
         else next (clauseNumberer ctx)
                (omap (λ p, heap ctx !! p) (clauseStack ctx)) (node ctx))
    ∧ clauseStack ctx' = clauseStack ctx ++ [length (heap ctx)]
    ∧ heap ctx'
      = match last (clauseStack ctx) with
        | Some p => alter (addSubclause (length (heap ctx))) p (heap ctx ++ [c])
        | None => heap ctx ++ [c]
        end
    ∧ spec ctx'
      = match last (clauseStack ctx) with
        | Some _ => s1
        | None => pushSubclause s1 (length (heap ctx))
        end
    ∧ inAlg ctx' = inAlg ctx ∧ currentId ctx' = currentId ctx.
Proof.
  unfold enter. intros H.
  destruct (if String.eqb (nodeName (node ctx)) "EMU-INTRO" then _ else _)
    as [number numberer'] eqn:En.
  match type of H with
  | context [construct ?a ?b ?c ?d ?e ?f] =>
      destruct (construct a b c d e f) as [[[s1 n1] c0]|] eqn:Hc; [|done];
      exists a, s1, c0, number
  end.
  destruct (last (clauseStack ctx)) as [p|]; simplify_eq; simpl; by repeat split.
Qed.

Lemma lookup_alter_addSubclause (hp : list Clause) p r i c :
  alter (addSubclause r) p hp !! i = Some c →
  ∃ c0, hp !! i = Some c0
        ∧ (p = i ∧ c = addSubclause r c0 ∨ p ≠ i ∧ c = c0).
Proof.
  destruct (decide (p = i)) as [->|Hne].
  - rewrite list_lookup_alter_eq. destruct (hp !! i) as [c0|]; [|done].
    intros [= <-]. exists c0. split; [done|]. by left.
  - rewrite list_lookup_alter_ne by done. intros H. exists c. split; [done|].
    by right.
Qed.

Lemma enter_heap (ctx ctx' : Ctx Numberer) :
  refsIn (heap ctx) (clauseStack ctx) →
  enterWith ctx = inl ctx' →
  let r := length (heap ctx) in
  clauseStack ctx' = clauseStack ctx ++ [r]
  ∧ length (heap ctx') = S r
  ∧ (∃ c, heap ctx' !! r = Some c
          ∧ c_id c = getAttribute (node ctx) "id"
          ∧ c_parentClause c = last (clauseStack ctx)
          ∧ c_subclauses c = [])
  ∧ (∀ i c0, heap ctx !! i = Some c0 →
       heap ctx' !! i
       = Some (if bool_decide (last (clauseStack ctx) = Some i)
               then addSubclause r c0 else c0))
  ∧ inAlg ctx' = inAlg ctx ∧ currentId ctx' = currentId ctx.
Proof.
  intros Hrefs H.
  destruct (enter_inv ctx ctx' H)
    as (s0 & s1 & c & number & Hc & _ & Hstack & Hheap & _ & Hin & Hcur).
  apply newClause_fields in Hc as (Hid & Hpar & Hsub & _).
  simpl. split; [done|]. rewrite Hheap.
  destruct (last (clauseStack ctx)) as [p|] eqn:Hlast.
  - assert (p < length (heap ctx))%nat as Hp.
    { apply last_Some in Hlast as [l' El]. unfold refsIn in Hrefs.
      rewrite El in Hrefs.
      apply Forall_app in Hrefs as [_ Hrefs].
      apply Forall_inv in Hrefs. exact Hrefs. }
    split; [by rewrite length_alter, length_app; simpl; lia|].
    split; [|split; [|done]].
    + exists c. rewrite list_lookup_alter_ne by lia.
      by rewrite list_lookup_middle.
    + intros i c0 Hi. case_bool_decide as Hd.
      * injection Hd as ->. rewrite list_lookup_alter_eq.
        rewrite lookup_app_l by done. unfold ClauseRef in *. by rewrite Hi.
      * rewrite list_lookup_alter_ne by congruence.
        rewrite lookup_app_l; [done|]. by apply lookup_lt_Some in Hi.
  - split; [by rewrite length_app; simpl; lia|].
    split; [|split; [|done]].
    + exists c. by rewrite list_lookup_middle.
    + intros i c0 Hi. rewrite bool_decide_false by done.
      rewrite lookup_app_l; [done|]. by apply lookup_lt_Some in Hi.
Qed.

(** Entering a node pushes exactly one new clause: the stack gains the
    reference of the clause allocated at the end of the heap, that clause
    has the node's id and the former top of the stack as its parent, and the
    clauses allocated before stay as they were, except that the parent gains
    the new clause as its last subclause.  [inAlg] and [currentId] are not
    touched. *)
Theorem enter_pushes_one_clause (ctx ctx' : Ctx Numberer) :
  refsIn (heap ctx) (clauseStack ctx) →
  enterWith ctx = inl ctx' →
  let r := length (heap ctx) in
  clauseStack ctx' = clauseStack ctx ++ [r]
  ∧ length (heap ctx') = S r
  ∧ (∃ c, heap ctx' !! r = Some c
          ∧ c_id c = getAttribute (node ctx) "id"
          ∧ c_parentClause c = last (clauseStack ctx)
          ∧ c_subclauses c = [])
  ∧ (∀ i c0, heap ctx !! i = Some c0 →
       heap ctx' !! i
       = Some (if bool_decide (last (clauseStack ctx) = Some i)
               then addSubclause r c0 else c0))
  ∧ inAlg ctx' = inAlg ctx ∧ currentId ctx' = currentId ctx.
Proof. apply enter_heap. Qed.

Lemma exit_frame (ctx ctx' : Ctx Numberer) :
  exit ctx = Some ctx' →
  clauseStack ctx' = removelast (clauseStack ctx) ∧ heap ctx' = heap ctx
  ∧ clauseNumberer ctx' = clauseNumberer ctx
  ∧ inAlg ctx' = inAlg ctx ∧ currentId ctx' = currentId ctx.
Proof.
  unfold exit. destruct (last (clauseStack ctx)) as [r|]; [|done]. simpl.
  destruct (heap ctx !! r) as [c|]; [|done]. simpl.
  destruct (exitAttributes _ _ _ _ _ _). by intros [= <-].
Qed.

Lemma omap_clauseOf_entries (ops : list OpBiblioEntry) (ce : ClauseBiblioEntry) :
  omap clauseOf ((EntryOp <$> ops) ++ [EntryClause ce]) = [ce].
Proof. induction ops as [|o ops IH]; simpl; done. Qed.

(** Exit after enter: the exit that follows the enter of a node always
    returns; it leaves the clause stack as it was before the enter and keeps
    the heap and the numberer as the enter left them, and it registers
    exactly one clause entry, that of the clause just created, which carries
    the node's id. *)
Theorem exit_undoes_enter_on_the_stack (ctx ctx1 : Ctx Numberer) :
  enterWith ctx = inl ctx1 →
  ∃ ctx2 c,
    exit ctx1 = Some ctx2
    ∧ clauseStack ctx2 = clauseStack ctx
    ∧ heap ctx2 = heap ctx1
    ∧ clauseNumberer ctx2 = clauseNumberer ctx1
    ∧ topClause ctx1 = Some c
    ∧ c_id c = getAttribute (node ctx) "id"
    ∧ addedClauses (s_biblio (spec ctx1)) (s_biblio (spec ctx2))
        (s_namespace (spec ctx1))
      = [clauseEntry c].
Proof.
  intros H.
  destruct (enter_inv ctx ctx1 H)
    as (s0 & s1 & c & number & Hc & _ & Hstack & Hheap & _).
  apply newClause_fields in Hc as (Hid & _).
  assert (∃ c', heap ctx1 !! length (heap ctx) = Some c' ∧ c_id c' = c_id c)
    as (c' & Hc' & Hid').
  { rewrite Hheap. destruct (last (clauseStack ctx)) as [p|].
    - destruct (alter _ p (heap ctx ++ [c]) !! length (heap ctx)) as [c'|] eqn:E.
      + exists c'. split; [done|].
        apply lookup_alter_addSubclause in E as (c0 & E & Hcase).
        rewrite list_lookup_middle in E by done. injection E as <-.
        by destruct Hcase as [[_ ->]|[_ ->]].
      + apply lookup_ge_None in E. rewrite length_alter, length_app in E.
        simpl in E. lia.
    - exists c. by rewrite list_lookup_middle. }
  assert (topClause ctx1 = Some c') as Htop.
  { unfold topClause. rewrite Hstack, last_snoc. simpl. exact Hc'. }
  destruct (exit_registry ctx1 c' Htop) as (ctx2 & Hexit & Hns & _).
  destruct (exit_frame ctx1 ctx2 Hexit) as (Hst & Hhp & Hnum & _).
  exists ctx2, c'. split; [done|].
  split; [by rewrite Hst, Hstack, removelast_last|].
  split; [done|]. split; [done|]. split; [done|]. split; [congruence|].
  unfold addedClauses. rewrite (addedEntries_app _ _ _ _ Hns).
  apply omap_clauseOf_entries.
Qed.

Lemma Forall_removelast {A : Type} (P : A → Prop) (l : list A) :
  Forall P l → Forall P (removelast l).
Proof.
  induction 1 as [|x l Hx Hl IH]; simpl; [constructor|].
  destruct l; [constructor|]. by constructor.
Qed.

Lemma wellFormed_enter (ctx ctx' : Ctx Numberer) :
  wellFormed ctx → enterWith ctx = inl ctx' → wellFormed ctx'.
Proof.
  intros [Hrefs Hwf] H.
  destruct (enter_heap ctx ctx' Hrefs H)
    as (Hstack & Hlen & (c & Hnew & _ & Hpar & Hsub) & Hold & _).
  simpl in *. unfold ClauseRef in *. set (r := length (heap ctx)) in *.
  assert (∀ p, last (clauseStack ctx) = Some p → (p < r)%nat) as Hlast.
  { intros p Hp. apply last_Some in Hp as [l' El]. unfold refsIn in Hrefs.
    rewrite El in Hrefs. apply Forall_app in Hrefs as [_ Hrefs].
    apply Forall_inv in Hrefs. exact Hrefs. }
  split.
  - unfold refsIn. rewrite Hstack, Hlen. apply Forall_app. split.
    + eapply Forall_impl; [exact Hrefs|]. simpl. intros. lia.
    + apply Forall_singleton. lia.
  - intros i c' Hi. rewrite Hlen.
    destruct (decide (i < r)%nat) as [Hlt|Hge].
    + destruct (lookup_lt_is_Some_2 (heap ctx) i Hlt) as [c0 Hc0].
      rewrite (Hold i c0 Hc0) in Hi. injection Hi as <-.
      destruct (Hwf i c0 Hc0) as [Hsubs Hparent].
      assert (∀ q pc, heap ctx !! q = Some pc → i ∈ c_subclauses pc →
                ∃ pc', heap ctx' !! q = Some pc' ∧ i ∈ c_subclauses pc')
        as Hkeep.
      { intros q pc Hpc Hin. rewrite (Hold q pc Hpc). eexists. split; [done|].
        case_bool_decide; simpl; [|done]. apply elem_of_app. by left. }
      case_bool_decide as Hd; simpl.
      * split.
        -- apply Forall_app. split.
           ++ eapply Forall_impl; [exact Hsubs|]. simpl. intros. lia.
           ++ apply Forall_singleton. lia.
        -- intros q Hq. destruct (Hparent q Hq) as (Hqi & pc & Hpc & Hin).
           split; [done|]. by apply (Hkeep q pc).
      * split.
        -- eapply Forall_impl; [exact Hsubs|]. simpl. intros. lia.
        -- intros q Hq. destruct (Hparent q Hq) as (Hqi & pc & Hpc & Hin).
           split; [done|]. by apply (Hkeep q pc).
    + assert (i = r) as ->.
      { apply lookup_lt_Some in Hi. lia. }
      unfold ClauseRef in *. rewrite Hnew in Hi. injection Hi as <-.
      rewrite Hsub. split; [constructor|].
      intros p Hp. rewrite Hpar in Hp. pose proof (Hlast p Hp) as Hpr.
      split; [done|].
      destruct (lookup_lt_is_Some_2 (heap ctx) p Hpr) as [pc Hpc].
      rewrite (Hold p pc Hpc), bool_decide_true by done.
      eexists. split; [done|]. simpl. apply elem_of_app. right.
      by apply list_elem_of_singleton.
Qed.

Lemma wellFormed_exit (ctx ctx' : Ctx Numberer) :
  wellFormed ctx → exit ctx = Some ctx' → wellFormed ctx'.
Proof.
  intros [Hrefs Hwf] H.
  destruct (exit_frame ctx ctx' H) as (Hst & Hhp & _).
  split.
  - unfold refsIn. rewrite Hst, Hhp. by apply Forall_removelast.
  - rewrite Hhp. exact Hwf.
Qed.

(** The clause tree stays well formed: when the clause stack points into the
    heap, subclauses are allocated after their clause, and every clause with
    a parent was allocated after it and is among its subclauses, the same
    holds after [enter] and after [exit].  So parent links never form a
    cycle and no reference dangles. *)
Theorem clause_tree_stays_well_formed (ctx : Ctx Numberer) :
  wellFormed ctx →
  (∀ ctx', enterWith ctx = inl ctx' → wellFormed ctx')
  ∧ (∀ ctx', exit ctx = Some ctx' → wellFormed ctx').
Proof.
  intros Hwf. split; intros ctx' H.
  - by apply (wellFormed_enter ctx).
  - by apply (wellFormed_exit ctx).
Qed.

(** ** The aoid attribute, the header and the section number of a new clause *)

Lemma buildStructuredHeader_explicit_aoid r s n this site header s' n' this' header' :
  hasAttribute n "aoid" = true →
  buildHeader r s n this site header = inl (s', n', this', header') →
  c_aoid this' = c_aoid this ∧ getAttribute n' "aoid" = getAttribute n "aoid".
Proof.
  intros Hattr Hb.
  destruct (extractStructuredHeader (hs_after site)) as [[[skipped dl] rest]|] eqn:Hdl.
  - destruct (buildStructuredHeader_inv _ _ _ _ _ _ _ _ _ _ _ _ _ _ _ _ _ _ _ _ _ _
                Hdl Hb)
      as (s1 & this1 & fh & s2 & fields & s4 & paras & s5 & Hc & _ & _ & _
          & _ & Hn' & _ & Hthis').
    apply compileSignature_fields in Hc as (_ & Haoid1 & _).
    rewrite Hn', Hthis'. simpl.
    set (n2 := plugSite _ _ _ (skipped ++ paras ++ rest)) in *.
    assert (hasAttribute n2 "aoid" = true) as Hattr2
      by (unfold n2; by rewrite !hasAttribute_plugSite).
    assert (getAttribute n2 "aoid" = getAttribute n "aoid") as Hget
      by (unfold n2; by rewrite !getAttribute_plugSite).
    unfold assignAoid. rewrite Hattr2.
    by destruct (dl_redefinition fields).
  - unfold buildStructuredHeader in Hb. rewrite Hdl in Hb. by simplify_eq.
Qed.

(** An explicit aoid attribute always wins: whatever the header says, the
    clause built from a node with an aoid attribute has that attribute's
    value as its aoid, or the node's id when the value is empty, and the
    attribute itself is left as written. *)
Theorem explicit_aoid_attribute_wins s hp n parent number r v s' n' c :
  getAttribute n "aoid" = Some v →
  construct s hp n parent number r = inl (s', n', c) →
  c_aoid c = Some (match v with EmptyString => nodeId n | _ => v end)
  ∧ getAttribute n' "aoid" = Some v.
Proof.
  intros Hv H. unfold newClause in H. rewrite Hv in H.
  assert (hasAttribute n "aoid" = true) as Hattr.
  { unfold hasAttribute. rewrite Hv. by apply bool_decide_eq_true. }
  destruct (getAttribute n "namespace") as [ns|];
    (destruct (traverseSiblings _ _ _) as [[[before header] after]|];
     [destruct (traverseOnceDown _ _) as [h1|];
      [destruct (String.eqb (nodeName h1) "H1");
       [ match type of H with
         | context [buildHeader ?a ?b ?c ?d ?e ?f] =>
             destruct (buildHeader a b c d e f)
               as [[[[s2 n2] this2] h2]|] eqn:Hb; [|done]
         end;
         apply (buildStructuredHeader_explicit_aoid _ _ _ _ _ _ _ _ _ _ Hattr) in Hb
           as [Haoid Hget];
         simplify_eq; simpl in *; rewrite Haoid, Hget; by destruct v
       | simplify_eq; simpl; by destruct v ]
      | simplify_eq; simpl; by destruct v ]
     | simplify_eq; simpl; by destruct v ]).
Qed.

(** The header of a new clause is an [h1] element, and then the constructor
    sets no title; or no header was found, and then title and rendered title
    are the placeholder "UNKNOWN", there is no signature and no effect, the
    node is untouched and exactly one missing-header diagnostic follows what
    the base constructor left. *)
Theorem clause_header_is_h1_or_unknown s hp n parent number r s' n' c :
  construct s hp n parent number r = inl (s', n', c) →
  (∃ h, c_header c = Some h ∧ nodeName h = "H1" ∧ c_title c = None)
  ∨ (c_header c = None ∧ c_title c = Some "UNKNOWN"
     ∧ c_titleHTML c = Some "UNKNOWN" ∧ c_signature c = None ∧ c_effects c = []
     ∧ n' = n
     ∧ ∃ w, emitted (Builder_init s n) s' = [w] ∧ ruleId w = "missing-header"
            ∧ w_type w = "node").
Proof.
  unfold newClause. intros H.
  destruct (getAttribute n "namespace") as [ns|];
    (destruct (traverseSiblings _ _ _) as [[[before header] after]|];
     [destruct (traverseOnceDown _ _) as [h1|];
      [destruct (String.eqb (nodeName h1) "H1") eqn:Eh;
       [ match type of H with
         | context [buildHeader ?a ?b ?c ?d ?e ?f] =>
             destruct (buildHeader a b c d e f)
               as [[[[s2 n2] this2] h2]|] eqn:Hb; [|done]
         end;
         pose proof (buildStructuredHeader_header _ _ _ _ _ _ _ _ _ _ Hb) as Hname;
         apply buildStructuredHeader_sameNode in Hb as [Hsame _];
         unfold sameNode in Hsame; simpl in Hsame; destruct_and!;
         simplify_eq; left; exists h2; simpl; split; [done|];
         split; [rewrite Hname; by apply String.eqb_eq | done]
       | simplify_eq; right; simpl; repeat split; try done;
         eexists; split; [by apply emitted_app|done] ]
      | simplify_eq; right; simpl; repeat split; try done;
        eexists; split; [by apply emitted_app|done] ]
     | simplify_eq; right; simpl; repeat split; try done;
       eexists; split; [by apply emitted_app|done] ]).
Qed.

(** The section number label of a new clause, read off its node: a clause
    without number (an introduction) and a back-matter annex have none; any
    node that is not an annex shows the bare number, whatever [back-matter]
    or [normative] attributes it carries; a top-level annex shows
    "Annex N" with "normative" exactly when it has the [normative]
    attribute. *)
Theorem secnum_of_new_clause s hp n parent number r s' n' c parentName :
  construct s hp n parent number r = inl (s', n', c) →
  (number = "" → getSecnumHTML c parentName = "")
  ∧ (nodeName n = "EMU-ANNEX" → hasAttribute n "back-matter" = true →
     getSecnumHTML c parentName = "")
  ∧ (nodeName n ≠ "EMU-ANNEX" → number ≠ "" →
     getSecnumHTML c parentName = spanOf "secnum" +:+ number +:+ "</span> ")
  ∧ (nodeName n = "EMU-ANNEX" → hasAttribute n "back-matter" = false →
     number ≠ "" → parentName ≠ Some "EMU-ANNEX" →
     getSecnumHTML c parentName
     = spanOf "secnum" +:+ "Annex " +:+ number +:+ " "
       +:+ spanOf "annex-kind" +:+ "("
       +:+ (if hasAttribute n "normative" then "normative" else "informative")
       +:+ ")</span></span> ").
Proof.
  intros H.
  apply newClause_fields in H
    as (_ & _ & _ & Hnum & _ & _ & _ & Hannex & Hback & Hnorm & _).
  unfold getSecnumHTML. rewrite Hnum, Hannex, Hback, Hnorm.
  split; [by intros ->|]. split; [|split].
  - intros -> ->. simpl. by rewrite orb_true_r.
  - intros Hne Hn. apply String.eqb_neq in Hne. rewrite Hne. simpl.
    by destruct number.
  - intros -> -> Hn Hp. simpl. rewrite bool_decide_false by done.
    by destruct number.
Qed.

End EnterFacts.

(** ** The signature of a parsed header *)

Section SignatureFacts.

Variable TypeParser_parse : string → Ty + Thrown.

Abbreviation slotOf :=
  (λ p : ParsedParam, (λ t, (t, pp_typeOffset p)) <$> pp_type p).

Lemma compileParams_slots ps :
  match compileParams TypeParser_parse ps with
  | inl qs =>
      firstFailure TypeParser_parse (omap slotOf ps) = None
      ∧ Forall2 (compiledFrom TypeParser_parse) ps qs
  | inr e => firstFailure TypeParser_parse (omap slotOf ps) = Some e
  end.
Proof.
  induction ps as [|p ps IH]; simpl; [by split|].
  unfold compileParam, parseType. destruct (pp_type p) as [t|] eqn:Et; simpl.
  - destruct (TypeParser_parse t) as [ty|[msg k|]] eqn:Ep; [|done..].
    destruct (compileParams _ ps) as [qs|e]; [|done].
    destruct IH as [IH1 IH2]. split; [done|]. constructor; [|done].
    split; [done|]. rewrite Et. eauto.
  - destruct (compileParams _ ps) as [qs|e]; [|done].
    destruct IH as [IH1 IH2]. split; [done|]. constructor; [|done].
    split; [done|]. by rewrite Et.
Qed.

Lemma firstFailure_app slots1 slots2 :
  firstFailure TypeParser_parse (slots1 ++ slots2)
  = match firstFailure TypeParser_parse slots1 with
    | Some e => Some e
    | None => firstFailure TypeParser_parse slots2
    end.
Proof.
  induction slots1 as [|[t o] slots1 IH]; simpl; [done|].
  by destruct (TypeParser_parse t) as [ty|[msg k|]].
Qed.

Lemma parsedHeaderToSignature_slots h :
  match parsedHeaderToSignature TypeParser_parse h with
  | inl sg =>
      firstFailure TypeParser_parse (typedSlots h) = None
      ∧ Forall2 (compiledFrom TypeParser_parse)
          (filter notDeleted (ph_params h)) (parameters sg)
      ∧ Forall2 (compiledFrom TypeParser_parse)
          (filter notDeleted (ph_optionalParams h)) (optionalParameters sg)
      ∧ match ph_returnType h with
        | Some t => ∃ ty, TypeParser_parse t = inl ty ∧ sig_return sg = Some ty
        | None => sig_return sg = None
        end
  | inr e => firstFailure TypeParser_parse (typedSlots h) = Some e
  end.
Proof.
  unfold parsedHeaderToSignature, typedSlots. rewrite !firstFailure_app.
  pose proof (compileParams_slots (filter notDeleted (ph_params h))) as H1.
  unfold notDeleted in *.
  destruct (compileParams _ (filter _ (ph_params h))) as [ps|e]; [|by rewrite H1].
  destruct H1 as [-> Hps].
  pose proof (compileParams_slots
                (filter (λ p, pp_wrappingTag p ≠ Some "del") (ph_optionalParams h)))
    as H2.
  destruct (compileParams _ (filter _ (ph_optionalParams h))) as [os|e];
    [|by rewrite H2].
  destruct H2 as [-> Hos].
  destruct (ph_returnType h) as [t|]; simpl; [|done].
  unfold parseType.
  destruct (TypeParser_parse t) as [ty|[msg k|]] eqn:Ep; simpl; rewrite ?Ep;
    simpl; [|done..].
  repeat split; eauto.
Qed.

(** The signature lists the parameters that are not marked as deleted, in
    their order and under their names, required and optional apart; a
    parameter has a type exactly when it has an annotation, and the type is
    what the type grammar makes of it; the same holds for the return type.
    Deleted parameters never appear. *)
Theorem signature_lists_the_kept_parameters h sg :
  parsedHeaderToSignature TypeParser_parse h = inl sg →
  Forall2 (compiledFrom TypeParser_parse)
    (filter (λ p, pp_wrappingTag p ≠ Some "del") (ph_params h)) (parameters sg)
  ∧ Forall2 (compiledFrom TypeParser_parse)
      (filter (λ p, pp_wrappingTag p ≠ Some "del") (ph_optionalParams h))
      (optionalParameters sg)
  ∧ match ph_returnType h with
    | Some t => ∃ ty, TypeParser_parse t = inl ty ∧ sig_return sg = Some ty
    | None => sig_return sg = None
    end.
Proof.
  intros H. pose proof (parsedHeaderToSignature_slots h) as Hs.
  rewrite H in Hs. by destruct Hs as (_ & ? & ? & ?).
Qed.

(** Compiling a signature fails exactly when some annotation of a kept
    parameter or the return type is rejected, and then with the error of the
    first rejected annotation in the order required parameters, optional
    parameters, return type; a parse error carries the offset of the type
    grammar plus the offset of the annotation in the header.  Annotations of
    deleted parameters are never compiled. *)
Theorem signature_fails_with_the_first_rejected_type h :
  (∀ e, parsedHeaderToSignature TypeParser_parse h = inr e
        ↔ firstFailure TypeParser_parse (typedSlots h) = Some e)
  ∧ ((∃ sg, parsedHeaderToSignature TypeParser_parse h = inl sg)
     ↔ firstFailure TypeParser_parse (typedSlots h) = None).
Proof.
  pose proof (parsedHeaderToSignature_slots h) as Hs.
  destruct (parsedHeaderToSignature TypeParser_parse h) as [sg|e0].
  - destruct Hs as [Hs _]. split.
    + intros e. rewrite Hs. split; discriminate.
    + split; [done|eauto].
  - split.
    + intros e. rewrite Hs. split; congruence.
    + rewrite Hs. split; [by intros [sg ?]|discriminate].
Qed.

End SignatureFacts.

(** ** Stepping over siblings, attributes and the effect worklist *)


Lemma lookupAttr_replaceAttr_ne k k' v a :
  k ≠ k' → lookupAttr k' (replaceAttr k v a) = lookupAttr k' a.
Proof.
  intros Hne. induction a as [|[k0 v0] a IH]; simpl.
  - by apply String.eqb_neq in Hne as ->.
  - destruct (String.eqb k0 k) eqn:E; simpl.
    + apply String.eqb_eq in E as ->. by apply String.eqb_neq in Hne as ->.
    + by rewrite IH.
Qed.

Lemma getAttribute_setAttribute_ne n k k' v :
  k ≠ k' → getAttribute (setAttribute n k v) k' = getAttribute n k'.
Proof. intros Hne. destruct n; [done|]. by apply lookupAttr_replaceAttr_ne. Qed.


Lemma assignAoid_worklist s n this redefinition name type :
  s_effectWorklist (assignAoid s n this redefinition name type).1.1
  = s_effectWorklist s
  ∧ c_effects (assignAoid s n this redefinition name type).2 = c_effects this.
Proof. unfold assignAoid. by repeat case_match. Qed.

Lemma worklistGet_push w e r e' :
  worklistGet (worklistPush w e r) e'
  = worklistGet w e' ++ (if bool_decide (e = e') then [r] else []).
Proof.
  induction w as [|[e0 cs] w IH]; simpl.
  - case_bool_decide as Hd.
    + subst. by rewrite String.eqb_refl.
    + by apply String.eqb_neq in Hd as ->.
  - destruct (String.eqb e0 e) eqn:E; simpl.
    + apply String.eqb_eq in E as ->. case_bool_decide as Hd.
      * subst. by rewrite String.eqb_refl.
      * apply String.eqb_neq in Hd as ->. by rewrite app_nil_r.
    + destruct (String.eqb e0 e') eqn:E'; [|done].
      apply String.eqb_eq in E' as ->. apply String.eqb_neq in E.
      rewrite bool_decide_false by congruence. by rewrite app_nil_r.
Qed.

Lemma worklistGet_foldl w es r e :
  worklistGet (foldl (λ w effect, worklistPush w effect r) w es) e
  = worklistGet w e ++ replicate (occurrences e es) r.
Proof.
  revert w. induction es as [|e0 es IH]; intros w; simpl.
  - by rewrite app_nil_r.
  - rewrite IH, worklistGet_push, <- app_assoc. f_equal.
    unfold occurrences. rewrite filter_cons.
    case_bool_decide; case_decide; try congruence; done.
Qed.

Section HeaderFacts.

Variable Builder_init : Spec → DomNode → Spec.
Variable locate : Spec → DomNode → option HeaderLocation.
Variable parseH1 : string → ParseResult.
Variable TypeParser_parse : string → Ty + Thrown.
Variable offsetToLineAndColumn : string → nat → nat * nat.
Variable formatHeader : Spec → DomNode → ParseResult → FormattedHeader * Spec.
Variable parseStructuredHeaderDl : Spec → option string → DomNode → HeaderDl * Spec.
Variable formatPreamble : Spec → PreambleArgs → list DomNode * Spec.
Variable serialize : list DomNode → string.
Variable parseFragment : string → list DomNode.

Abbreviation sourceOf := (headerSourceOf locate serialize).
Abbreviation toSignature := (parsedHeaderToSignature TypeParser_parse).
Abbreviation buildHeader :=
  (buildStructuredHeader locate parseH1 TypeParser_parse offsetToLineAndColumn
     formatHeader parseStructuredHeaderDl formatPreamble serialize parseFragment).
Abbreviation construct :=
  (newClause Builder_init locate parseH1 TypeParser_parse offsetToLineAndColumn
     formatHeader parseStructuredHeaderDl formatPreamble serialize parseFragment).




(** The effects and the overrides of the description list end up on the
    clause, and the clause is appended to the worklist of each of these
    effects, once for every time the list names the effect; the worklists
    of other effects are as [formatPreamble] left them. *)
Theorem structured_header_records_effects r s n this site header skipped dl rest
    s' n' this' header' :
  extractStructuredHeader (hs_after site) = Some (skipped, dl, rest) →
  buildHeader r s n this site header = inl (s', n', this', header') →
  ∃ s1 fh s2 fields s4 args paras s5,
    formatHeader s1 header (parseH1 (sourceOf s header)) = (fh, s2)
    ∧ parseStructuredHeaderDl
        (checkNumericMethod s2 (c_type this) (fh_name fh) header) (c_type this) dl
      = (fields, s4)
    ∧ formatPreamble s4 args = (paras, s5)
    ∧ c_effects this' = c_effects this ++ dl_effects fields
    ∧ c_skipGlobalChecks this' = dl_skipGlobalChecks fields
    ∧ c_skipReturnChecks this' = dl_skipReturnChecks fields
    ∧ ∀ effect,
        worklistGet (s_effectWorklist s') effect
        = worklistGet (s_effectWorklist s5) effect
          ++ replicate (occurrences effect (dl_effects fields)) r.
Proof.
  intros Hdl H.
  destruct (buildStructuredHeader_inv _ _ _ _ _ _ _ _ _ _ _ _ _ _ _ _ _ _ _ _ _ _ Hdl H)
    as (s1 & this1 & fh & s2 & fields & s4 & paras & s5
        & Hc & Hf & Hd & _ & Hp & _ & Hs & Ht).
  simpl in *.
  exists s1, fh, s2, fields, s4. eexists _, paras, s5.
  do 3 (split; [done|]).
  match type of Hs with
  | context [assignAoid ?a ?b ?c ?d ?e ?f] =>
      destruct (assignAoid_worklist a b c d e f) as [Hw He]
  end.
  apply (compileSignature_sameNode TypeParser_parse offsetToLineAndColumn)
    in Hc as (_ & _ & Hce & _).
  subst s' this'. simpl. rewrite He, Hce, Hw. repeat split.
  intros effect. apply worklistGet_foldl.
Qed.


End HeaderFacts.

(** ** Cutting the parameter list out of a header *)

Lemma length_append (a b : string) :
  String.length (a +:+ b) = (String.length a + String.length b)%nat.
Proof. induction a; simpl; by f_equal. Qed.

Lemma append_nil_l (b : string) : EmptyString +:+ b = b.
Proof. done. Qed.

Lemma append_cons_l x (a b : string) : String x a +:+ b = String x (a +:+ b).
Proof. done. Qed.

Lemma substring_whole (s : string) : String.substring 0 (String.length s) s = s.
Proof. induction s; simpl; by f_equal. Qed.

Lemma substring_prefix_part (a b : string) :
  String.substring 0 (String.length a) (a +:+ b) = a.
Proof. induction a; simpl; [by destruct b|by f_equal]. Qed.

Lemma substring_suffix_part (a b : string) :
  String.substring (String.length a) (String.length b) (a +:+ b) = b.
Proof. induction a; simpl; [apply substring_whole|done]. Qed.

Lemma prefix_char c x s :
  String.prefix (String c EmptyString) (String x s) = bool_decide (c = x).
Proof.
  simpl. destruct (Ascii.ascii_dec c x) as [->|Hne].
  - rewrite bool_decide_true by done. by destruct s.
  - by rewrite bool_decide_false.
Qed.

Lemma includes_char_cons c x s :
  JS.includes (String x s) (String c EmptyString) = false →
  c ≠ x ∧ JS.includes s (String c EmptyString) = false.
Proof.
  unfold JS.includes. cbn [String.index].
  rewrite prefix_char. case_bool_decide; [done|].
  destruct (String.index 0 _ s); [done|]. by split.
Qed.

Lemma indexOf_first_char c pre rest :
  JS.includes pre (String c EmptyString) = false →
  JS.indexOf (pre +:+ String c rest) (String c EmptyString)
  = Z.of_nat (String.length pre).
Proof.
  unfold JS.indexOf. induction pre as [|x pre IH]; intros H.
  - rewrite append_nil_l. cbn [String.index]. rewrite prefix_char.
    by rewrite bool_decide_true.
  - apply includes_char_cons in H as [Hne H].
    rewrite append_cons_l. cbn [String.index]. rewrite prefix_char.
    rewrite bool_decide_false by done.
    specialize (IH H). destruct (String.index 0 _ (pre +:+ _)); [|lia].
    simpl String.length. lia.
Qed.

Lemma indexOf_missing c s :
  JS.includes s (String c EmptyString) = false →
  JS.indexOf s (String c EmptyString) = -1.
Proof. unfold JS.includes, JS.indexOf. by destruct (String.index _ _ _). Qed.

Lemma lastIndexOf_from_missing c s i acc :
  JS.includes s (String c EmptyString) = false →
  JS.lastIndexOf_from s (String c EmptyString) i acc = acc.
Proof.
  revert i. induction s as [|x s IH]; intros i H; [done|].
  apply includes_char_cons in H as [Hne H].
  cbn [JS.lastIndexOf_from]. rewrite prefix_char.
  rewrite bool_decide_false by done. by apply IH.
Qed.

Lemma lastIndexOf_from_last_char c a post i acc :
  JS.includes post (String c EmptyString) = false →
  JS.lastIndexOf_from (a +:+ String c post) (String c EmptyString) i acc
  = Z.of_nat (i + String.length a).
Proof.
  intros H. revert i acc. induction a as [|x a IH]; intros i acc.
  - rewrite append_nil_l. cbn [JS.lastIndexOf_from]. rewrite prefix_char.
    rewrite bool_decide_true by done.
    rewrite lastIndexOf_from_missing by done. simpl. f_equal. lia.
  - rewrite append_cons_l. cbn [JS.lastIndexOf_from]. rewrite IH.
    simpl. f_equal. lia.
Qed.

Lemma substring_to_length_of_prefix a b :
  JS.substring (a +:+ b) 0 (Z.of_nat (String.length a)) = a.
Proof.
  unfold JS.substring. rewrite length_append.
  replace (Z.max 0 (Z.min 0 _)) with 0 by lia.
  replace (Z.max 0 (Z.min (Z.of_nat (String.length a)) _))
    with (Z.of_nat (String.length a)) by lia.
  replace (Z.min 0 _) with 0 by lia.
  replace (Z.max 0 _) with (Z.of_nat (String.length a)) by lia.
  rewrite Z.sub_0_r, Nat2Z.id. apply substring_prefix_part.
Qed.

Lemma substringFrom_length_of_prefix a b :
  JS.substringFrom (a +:+ b) (Z.of_nat (String.length a)) = b.
Proof.
  unfold JS.substringFrom, JS.substring. rewrite length_append.
  set (la := String.length a). set (lb := String.length b).
  replace (Z.max 0 (Z.min (Z.of_nat la) _)) with (Z.of_nat la) by lia.
  replace (Z.max 0 (Z.min (Z.of_nat (la + lb)) _)) with (Z.of_nat (la + lb)) by lia.
  replace (Z.min (Z.of_nat la) _) with (Z.of_nat la) by lia.
  replace (Z.max (Z.of_nat la) _) with (Z.of_nat (la + lb)) by lia.
  replace (Z.to_nat (Z.of_nat (la + lb) - Z.of_nat la)) with lb by lia.
  rewrite Nat2Z.id. apply substring_suffix_part.
Qed.

Lemma append_assoc (a b c : string) : (a +:+ b) +:+ c = a +:+ (b +:+ c).
Proof. induction a as [|x a IH]; [done|]. rewrite !append_cons_l. by f_equal. Qed.

Lemma cut_between c1 c2 (pre mid post : string) :
  JS.includes pre (String c1 EmptyString) = false →
  JS.includes post (String c2 EmptyString) = false →
  let header := pre +:+ String c1 (mid +:+ String c2 post) in
  JS.substring header 0 (JS.indexOf header (String c1 EmptyString))
  +:+ JS.substringFrom header (JS.lastIndexOf header (String c2 EmptyString) + 1)
  = pre +:+ post.
Proof.
  intros Hpre Hpost header. unfold header.
  rewrite indexOf_first_char by exact Hpre.
  rewrite substring_to_length_of_prefix. f_equal.
  assert (E : pre +:+ String c1 (mid +:+ String c2 post)
              = ((pre +:+ String c1 mid) +:+ String c2 EmptyString) +:+ post).
  { by rewrite !append_assoc, !append_cons_l, append_nil_l. }
  rewrite E. set (a := pre +:+ String c1 mid).
  replace (JS.lastIndexOf ((a +:+ String c2 EmptyString) +:+ post)
             (String c2 EmptyString))
    with (Z.of_nat (String.length a)).
  - replace (Z.of_nat (String.length a) + 1)
      with (Z.of_nat (String.length (a +:+ String c2 EmptyString)))
      by (rewrite length_append; simpl; lia).
    apply substringFrom_length_of_prefix.
  - unfold JS.lastIndexOf. rewrite append_assoc, append_cons_l, append_nil_l.
    by rewrite (lastIndexOf_from_last_char c2 a post 0 (-1) Hpost).
Qed.

Lemma cut_unclosed c1 c2 (pre rest : string) :
  JS.includes pre (String c1 EmptyString) = false →
  JS.includes (pre +:+ String c1 rest) (String c2 EmptyString) = false →
  let header := pre +:+ String c1 rest in
  JS.substring header 0 (JS.indexOf header (String c1 EmptyString))
  +:+ JS.substringFrom header (JS.lastIndexOf header (String c2 EmptyString) + 1)
  = pre +:+ header.
Proof.
  intros Hpre Hclose header. unfold header.
  rewrite indexOf_first_char by exact Hpre.
  rewrite substring_to_length_of_prefix. f_equal.
  unfold JS.lastIndexOf.
  rewrite (lastIndexOf_from_missing c2 _ 0 (-1) Hclose).
  apply (substringFrom_length_of_prefix EmptyString).
Qed.

(** [stripParameterList] removes everything from the first opening
    parenthesis to the last closing one after it, nested parentheses
    included, and trims what is left. *)
Theorem stripParameterList_cuts_the_parentheses (pre mid post : string) :
  JS.includes pre "(" = false →
  JS.includes post ")" = false →
  stripParameterList (pre +:+ "(" +:+ mid +:+ ")" +:+ post) = JS.trim (pre +:+ post).
Proof.
  intros Hpre Hpost. unfold stripParameterList. f_equal.
  exact (cut_between _ _ pre mid post Hpre Hpost).
Qed.

(** A header with an opening parenthesis and no closing one loses nothing:
    [lastIndexOf] misses, the second substring starts at 0, and the whole
    header follows the text in front of the parenthesis. *)
Theorem stripParameterList_without_closing_parenthesis (pre rest : string) :
  JS.includes pre "(" = false →
  JS.includes (pre +:+ "(" +:+ rest) ")" = false →
  stripParameterList (pre +:+ "(" +:+ rest)
  = JS.trim (pre +:+ pre +:+ "(" +:+ rest).
Proof.
  intros Hpre Hclose. unfold stripParameterList. f_equal.
  exact (cut_unclosed _ _ pre rest Hpre Hclose).
Qed.

(** ** The legacy clause *)

Section LegacyFacts.

Context {Numbering : Type}.
Variable getNextClauseNumber : Numbering → nat → bool → string * Numbering.



End LegacyFacts.

(** ** The text nodes that get ecmarkdown *)

Lemma DomNode_nested_ind (P : DomNode → Prop) :
  (∀ d, P (TextNode d)) →
  (∀ t a k, Forall P k → P (Elem t a k)) →
  ∀ n, P n.
Proof.
  intros Htext Helem. fix IH 1. intros [d|t a k]; [apply Htext|].
  apply Helem. induction k as [|x k IHk]; constructor; [apply IH|apply IHk].
Qed.

Lemma textNodesUnder_Elem t a k :
  textNodesUnder (Elem t a k) = textNodesFrom 0 k.
Proof.
  simpl. generalize 0%nat. induction k as [|x k IH]; intros i; [done|].
  simpl. by rewrite IH.
Qed.

Lemma elem_of_textNodesFrom i ks p :
  p ∈ textNodesFrom i ks ↔
  ∃ j x p', p = (i + j)%nat :: p' ∧ ks !! j = Some x
    ∧ (isElement x = false ∧ p' = []
       ∨ isElement x = true ∧ arrayIncludes NO_EMD (nodeName x) = false
         ∧ p' ∈ textNodesUnder x).
Proof.
  revert i. induction ks as [|x ks IH]; intros i; cbn [textNodesFrom].
  - split; [by intros ?%elem_of_nil|by intros (j & y & p' & _ & ? & _)].
  - rewrite elem_of_app, IH. split.
    + intros [H|(j & y & p' & -> & Hj & Hy)].
      * exists 0%nat, x. destruct (isElement x) eqn:Ex; cbn [negb] in H.
        -- destruct (arrayIncludes NO_EMD (nodeName x)) eqn:En; cbn [negb] in H;
             [by apply elem_of_nil in H|].
           apply list_elem_of_fmap in H as (p' & -> & Hp').
           exists p'. rewrite Nat.add_0_r. split; [done|]. split; [done|]. by right.
        -- apply list_elem_of_singleton in H as ->. exists [].
           rewrite Nat.add_0_r. split; [done|]. split; [done|]. by left.
      * exists (S j), y, p'. split; [f_equal; lia|]. by split.
    + intros (j & y & p' & -> & Hj & Hy). destruct j as [|j]; simpl in Hj.
      * injection Hj as ->. left. rewrite Nat.add_0_r.
        destruct Hy as [[-> ->]|(-> & -> & Hp')]; cbn [negb].
        -- by apply list_elem_of_singleton.
        -- apply list_elem_of_fmap. by exists p'.
      * right. exists j, y, p'. split; [f_equal; lia|]. by split.
Qed.

(** [textNodesUnder] yields exactly the text nodes strictly below the node
    that have no [pre], [code], [emu-clause], [emu-production] or [emu-alg]
    element on the way down to them; the node itself may be any element,
    one of these five included. *)
Theorem textNodesUnder_skips_no_emd_elements (n : DomNode) (path : list nat) :
  path ∈ textNodesUnder n ↔
  path ≠ []
  ∧ (∃ d, nodeAt n path = Some (TextNode d))
  ∧ ∀ q m, q ≠ [] → q `prefix_of` path → nodeAt n q = Some m →
      nodeName m ∉ NO_EMD.
Proof.
  revert path. induction n as [d|t a k IH] using DomNode_nested_ind; intros path.
  - simpl. split; [by intros ?%elem_of_nil|].
    intros (Hne & [d' Hd] & _). destruct path as [|i path]; [done|].
    by simpl in Hd.
  - rewrite textNodesUnder_Elem, elem_of_textNodesFrom.
    rewrite Forall_lookup in IH. split.
    + intros (j & x & p' & -> & Hj & Hx). split; [done|]. simpl. rewrite Hj.
      destruct Hx as [[Hx ->]|(Hx & Hname & Hp')].
      * destruct x as [d|]; [|done]. split; [by exists d|].
        intros q m Hq [rest Hpre] Hm. destruct q as [|i q]; [done|].
        simpl in Hpre. injection Hpre as <- Hrest.
        destruct q; [|done]. simpl in Hm. rewrite Hj in Hm. injection Hm as <-.
        apply (bool_decide_unpack _). vm_compute. exact I.
      * apply (IH _ _ Hj) in Hp' as (Hne & Hd & Hq). split; [done|].
        intros q m Hqne [rest Hpre] Hm. destruct q as [|i q]; [done|].
        simpl in Hpre. injection Hpre as <- Hrest. simpl in Hm. rewrite Hj in Hm.
        destruct q as [|i q].
        -- simpl in Hm. injection Hm as <-. intros Hin.
           apply arrayIncludes_elem_of in Hin. congruence.
        -- apply (Hq (i :: q) m); [done| |done]. by exists rest.
    + intros (Hne & [d Hd] & Hq). destruct path as [|j p']; [done|].
      simpl in Hd. destruct (k !! j) as [x|] eqn:Hj; [|done].
      exists j, x, p'. split; [done|]. split; [done|].
      destruct p' as [|i p'].
      * simpl in Hd. injection Hd as ->. by left.
      * right. destruct x as [d'|t' a' k']; [by simpl in Hd|].
        split; [done|]. split.
        -- destruct (arrayIncludes NO_EMD t') eqn:En; [|done].
           apply arrayIncludes_elem_of in En. exfalso.
           apply (Hq [j] (Elem t' a' k')); [done|by exists (i :: p')| |done].
           simpl. by rewrite Hj.
        -- apply (IH _ _ Hj). split; [done|]. split; [by exists d|].
           intros q m Hqne [rest Hpre] Hm.
           apply (Hq (j :: q) m); [done|exists rest; by rewrite Hpre|].
           simpl. by rewrite Hj.
Qed.

(** * The further properties on concrete documents *)


Lemma exit_spells_out_op_kind_witness :
  let ctx := Demo.leaving Demo.operation in
  let c := Demo.operation in
  topClause ctx = Some c
  ∧ ∃ ctx',
      exit ctx = Some ctx'
      ∧ ∀ op,
          op ∈ addedOps (s_biblio (spec ctx)) (s_biblio (spec ctx'))
                 (s_namespace (spec ctx)) →
          oe_kind op ≠ Some "sdo"
          ∧ (∀ k, oe_kind op = Some k →
               k ∈ aoidTypes
               ∧ (c_type c = Some k
                  ∨ (c_type c = Some "sdo" ∧ k = "syntax-directed operation")))
          ∧ (oe_kind op = None → ∀ t, c_type c = Some t → t ∉ aoidTypes).
Proof.
  cbv zeta. split; [vm_compute; reflexivity|].
  apply (exit_spells_out_op_kind (Demo.leaving Demo.operation) Demo.operation).
  vm_compute; reflexivity.
Defined.

Lemma exit_registers_the_aoid_witness :
  let ctx := Demo.leaving Demo.operation in
  let c := Demo.operation in
  topClause ctx = Some c
  ∧ ∃ ctx',
      exit ctx = Some ctx'
      ∧ keysForNamespace (s_biblio (spec ctx')) (s_namespace (spec ctx))
        = keysForNamespace (s_biblio (spec ctx)) (s_namespace (spec ctx))
          ∪ match c_aoid c with
            | Some (String ch a) => {[String ch a]}
            | _ => ∅
            end.
Proof.
  cbv zeta. split; [vm_compute; reflexivity|].
  apply (exit_registers_the_aoid (Demo.leaving Demo.operation) Demo.operation).
  vm_compute; reflexivity.
Defined.

(** Leaving [Op], whose return type mixes completion records with other
    values: one completion-union diagnostic beside the op entry. *)
Lemma exit_reports_at_most_once_witness :
  let ctx := Demo.leaving Demo.operation in
  let c := Demo.operation in
  topClause ctx = Some c
  ∧ ∃ ctx',
      exit ctx = Some ctx'
      ∧ let ws := emitted (spec ctx) (spec ctx') in
        let ops := addedOps (s_biblio (spec ctx)) (s_biblio (spec ctx'))
                     (s_namespace (spec ctx)) in
        (length ws ≤ 1)%nat
        ∧ (∀ w, w ∈ ws →
             w_type w = "node"
             ∧ (ruleId w = "duplicate-definition" ∧ ops = []
                ∨ ruleId w = "completion-union" ∧ length ops = 1%nat))
        ∧ (JS.truthy (c_aoid c) = false → ws = [] ∧ ops = []).
Proof.
  cbv zeta. split; [vm_compute; reflexivity|].
  apply (exit_reports_at_most_once (Demo.leaving Demo.operation) Demo.operation).
  vm_compute; reflexivity.
Defined.

(** Leaving a deprecated legacy clause of the namespace [inner]. *)
Lemma exit_queues_label_in_clause_namespace_witness :
  let ctx := Sample.labelled in
  let c := Demo.namespacedClause in
  let r := 0%nat in
  (topClause ctx = Some c ∧ last (clauseStack ctx) = Some r)
  ∧ ∃ ctx',
      exit ctx = Some ctx'
      ∧ default [] (s_textNodes (spec ctx') !! c_namespace c)
        = default [] (s_textNodes (spec ctx) !! c_namespace c)
          ++ match labelFor (node ctx) with
             | Some text =>
                 [{| tn_node := TextNode text; tn_clause := r;
                     tn_inAlg := inAlg ctx; tn_currentId := currentId ctx |}]
             | None => []
             end
      ∧ ∀ ns, ns ≠ c_namespace c →
          s_textNodes (spec ctx') !! ns = s_textNodes (spec ctx) !! ns.
Proof.
  cbv zeta. split; [split; vm_compute; reflexivity|].
  apply (exit_queues_label_in_clause_namespace Sample.labelled
           Demo.namespacedClause 0%nat); vm_compute; reflexivity.
Defined.

(** Entering an abstract operation below the clause at reference 0. *)
Lemma enter_pushes_one_clause_witness :
  let ctx := Sample.entering in
  let ctx' := Sample.afterEnter in
  (refsIn (heap ctx) (clauseStack ctx) ∧ Demo.enter ctx = inl ctx')
  ∧ let r := length (heap ctx) in
    clauseStack ctx' = clauseStack ctx ++ [r]
    ∧ length (heap ctx') = S r
    ∧ (∃ c, heap ctx' !! r = Some c
            ∧ c_id c = getAttribute (node ctx) "id"
            ∧ c_parentClause c = last (clauseStack ctx)
            ∧ c_subclauses c = [])
    ∧ (∀ i c0, heap ctx !! i = Some c0 →
         heap ctx' !! i
         = Some (if bool_decide (last (clauseStack ctx) = Some i)
                 then addSubclause r c0 else c0))
    ∧ inAlg ctx' = inAlg ctx ∧ currentId ctx' = currentId ctx.
Proof.
  cbv zeta.
  assert (Hrefs : refsIn (heap Sample.entering) (clauseStack Sample.entering))
    by (unfold refsIn; simpl; repeat constructor).
  assert (Henter : Demo.enter Sample.entering = inl Sample.afterEnter)
    by (vm_compute; reflexivity).
  split; [by split|].
  exact (enter_pushes_one_clause Demo.next Demo.Builder_init Demo.locate
           Demo.parseH1 Demo.TypeParser_parse Demo.offsetToLineAndColumn
           Demo.formatHeader Demo.parseStructuredHeaderDl Demo.formatPreamble
           Demo.serialize Demo.parseFragment Sample.entering Sample.afterEnter
           Hrefs Henter).
Defined.

Lemma exit_undoes_enter_on_the_stack_witness :
  let ctx := Sample.entering in
  let ctx1 := Sample.afterEnter in
  Demo.enter ctx = inl ctx1
  ∧ ∃ ctx2 c,
      exit ctx1 = Some ctx2
      ∧ clauseStack ctx2 = clauseStack ctx
      ∧ heap ctx2 = heap ctx1
      ∧ clauseNumberer ctx2 = clauseNumberer ctx1
      ∧ topClause ctx1 = Some c
      ∧ c_id c = getAttribute (node ctx) "id"
      ∧ addedClauses (s_biblio (spec ctx1)) (s_biblio (spec ctx2))
          (s_namespace (spec ctx1))
        = [clauseEntry c].
Proof.
  cbv zeta.
  assert (Henter : Demo.enter Sample.entering = inl Sample.afterEnter)
    by (vm_compute; reflexivity).
  split; [done|].
  exact (exit_undoes_enter_on_the_stack Demo.next Demo.Builder_init Demo.locate
           Demo.parseH1 Demo.TypeParser_parse Demo.offsetToLineAndColumn
           Demo.formatHeader Demo.parseStructuredHeaderDl Demo.formatPreamble
           Demo.serialize Demo.parseFragment Sample.entering Sample.afterEnter
           Henter).
Defined.

Lemma clause_tree_stays_well_formed_witness :
  let ctx := Sample.entering in
  wellFormed ctx
  ∧ (∀ ctx', Demo.enter ctx = inl ctx' → wellFormed ctx')
  ∧ (∀ ctx', exit ctx = Some ctx' → wellFormed ctx').
Proof.
  cbv zeta.
  assert (Hwf : wellFormed Sample.entering).
  { split; [unfold refsIn; simpl; repeat constructor|].
    intros r c H. destruct r as [|r]; simpl in H; [|done].
    injection H as <-. simpl. split; [constructor|done]. }
  split; [done|].
  exact (clause_tree_stays_well_formed Demo.next Demo.Builder_init Demo.locate
           Demo.parseH1 Demo.TypeParser_parse Demo.offsetToLineAndColumn
           Demo.formatHeader Demo.parseStructuredHeaderDl Demo.formatPreamble
           Demo.serialize Demo.parseFragment Sample.entering Hwf).
Defined.

(** A structured header named [Foo] on a node with the aoid [Bar]: the
    clause is [Bar]. *)
Lemma explicit_aoid_attribute_wins_witness :
  let n := Sample.explicitAoid in
  let v := "Bar" in
  let s' := (Sample.constructed n "1").1.1 in
  let n' := (Sample.constructed n "1").1.2 in
  let c := (Sample.constructed n "1").2 in
  (getAttribute n "aoid" = Some v
   ∧ Sample.construct Demo.emptySpec [] n None "1" 0%nat = inl (s', n', c))
  ∧ c_aoid c = Some (match v with EmptyString => nodeId n | _ => v end)
  ∧ getAttribute n' "aoid" = Some v.
Proof.
  cbv zeta.
  assert (Hc : Sample.construct Demo.emptySpec [] Sample.explicitAoid None "1" 0%nat
               = inl ((Sample.constructed Sample.explicitAoid "1").1.1,
                      (Sample.constructed Sample.explicitAoid "1").1.2,
                      (Sample.constructed Sample.explicitAoid "1").2))
    by (vm_compute; reflexivity).
  split; [by split|].
  exact (explicit_aoid_attribute_wins Demo.Builder_init Demo.locate
           Demo.parseH1 Demo.TypeParser_parse Demo.offsetToLineAndColumn
           Demo.formatHeader Demo.parseStructuredHeaderDl Demo.formatPreamble
           Demo.serialize Demo.parseFragment Demo.emptySpec [] Sample.explicitAoid
           None "1" 0%nat "Bar" _ _ _ eq_refl Hc).
Defined.

(** A clause element without any child: the placeholder title. *)
Lemma clause_header_is_h1_or_unknown_witness :
  let n := Elem "EMU-CLAUSE" [("id", "sec-empty")] [] in
  let s := Demo.emptySpec in
  let s' := (Sample.constructed n "1").1.1 in
  let n' := (Sample.constructed n "1").1.2 in
  let c := (Sample.constructed n "1").2 in
  Sample.construct s [] n None "1" 0%nat = inl (s', n', c)
  ∧ ((∃ h, c_header c = Some h ∧ nodeName h = "H1" ∧ c_title c = None)
     ∨ (c_header c = None ∧ c_title c = Some "UNKNOWN"
        ∧ c_titleHTML c = Some "UNKNOWN" ∧ c_signature c = None ∧ c_effects c = []
        ∧ n' = n
        ∧ ∃ w, emitted (Demo.Builder_init s n) s' = [w]
               ∧ ruleId w = "missing-header" ∧ w_type w = "node")).
Proof.
  cbv zeta.
  assert (Hc : Sample.construct Demo.emptySpec []
                 (Elem "EMU-CLAUSE" [("id", "sec-empty")] []) None "1" 0%nat
               = inl ((Sample.constructed
                         (Elem "EMU-CLAUSE" [("id", "sec-empty")] []) "1").1.1,
                      (Sample.constructed
                         (Elem "EMU-CLAUSE" [("id", "sec-empty")] []) "1").1.2,
                      (Sample.constructed
                         (Elem "EMU-CLAUSE" [("id", "sec-empty")] []) "1").2))
    by (vm_compute; reflexivity).
  split; [done|].
  exact (clause_header_is_h1_or_unknown Demo.Builder_init Demo.locate
           Demo.parseH1 Demo.TypeParser_parse Demo.offsetToLineAndColumn
           Demo.formatHeader Demo.parseStructuredHeaderDl Demo.formatPreamble
           Demo.serialize Demo.parseFragment Demo.emptySpec [] _ None "1" 0%nat
           _ _ _ Hc).
Defined.

(** The normative annex A. *)
Lemma secnum_of_new_clause_witness :
  let n := Sample.annex in
  let number := "A" in
  let parentName : option string := None in
  let s' := (Sample.constructed n number).1.1 in
  let n' := (Sample.constructed n number).1.2 in
  let c := (Sample.constructed n number).2 in
  Sample.construct Demo.emptySpec [] n None number 0%nat = inl (s', n', c)
  ∧ (number = "" → getSecnumHTML c parentName = "")
  ∧ (nodeName n = "EMU-ANNEX" → hasAttribute n "back-matter" = true →
     getSecnumHTML c parentName = "")
  ∧ (nodeName n ≠ "EMU-ANNEX" → number ≠ "" →
     getSecnumHTML c parentName = spanOf "secnum" +:+ number +:+ "</span> ")
  ∧ (nodeName n = "EMU-ANNEX" → hasAttribute n "back-matter" = false →
     number ≠ "" → parentName ≠ Some "EMU-ANNEX" →
     getSecnumHTML c parentName
     = spanOf "secnum" +:+ "Annex " +:+ number +:+ " "
       +:+ spanOf "annex-kind" +:+ "("
       +:+ (if hasAttribute n "normative" then "normative" else "informative")
       +:+ ")</span></span> ").
Proof.
  cbv zeta.
  assert (Hc : Sample.construct Demo.emptySpec [] Sample.annex None "A" 0%nat
               = inl ((Sample.constructed Sample.annex "A").1.1,
                      (Sample.constructed Sample.annex "A").1.2,
                      (Sample.constructed Sample.annex "A").2))
    by (vm_compute; reflexivity).
  split; [done|].
  exact (secnum_of_new_clause Demo.Builder_init Demo.locate
           Demo.parseH1 Demo.TypeParser_parse Demo.offsetToLineAndColumn
           Demo.formatHeader Demo.parseStructuredHeaderDl Demo.formatPreamble
           Demo.serialize Demo.parseFragment Demo.emptySpec [] Sample.annex None
           "A" 0%nat _ _ _ None Hc).
Defined.

(** A header with a deleted parameter: the signature leaves it out. *)
Lemma signature_lists_the_kept_parameters_witness :
  let h := Sample.parsed in
  let sg := Sample.signature in
  parsedHeaderToSignature Demo.TypeParser_parse h = inl sg
  ∧ Forall2 (compiledFrom Demo.TypeParser_parse)
      (filter (λ p, pp_wrappingTag p ≠ Some "del") (ph_params h)) (parameters sg)
  ∧ Forall2 (compiledFrom Demo.TypeParser_parse)
      (filter (λ p, pp_wrappingTag p ≠ Some "del") (ph_optionalParams h))
      (optionalParameters sg)
  ∧ match ph_returnType h with
    | Some t => ∃ ty, Demo.TypeParser_parse t = inl ty ∧ sig_return sg = Some ty
    | None => sig_return sg = None
    end.
Proof.
  cbv zeta.
  assert (Hsg : parsedHeaderToSignature Demo.TypeParser_parse Sample.parsed
                = inl Sample.signature) by (vm_compute; reflexivity).
  split; [done|].
  exact (signature_lists_the_kept_parameters Demo.TypeParser_parse Sample.parsed
           Sample.signature Hsg).
Defined.


(** A description list that names the effect [user-code] twice. *)
Lemma structured_header_records_effects_witness :
  let text := "Foo ( _a_ )" in
  let r := 0%nat in
  let s := Demo.emptySpec in
  let n := Demo.abstractOperation text in
  let this := Demo.fresh in
  let site := Demo.site text in
  let header := Demo.h1 text in
  let dl := Demo.dl in
  let s' := Sample.builtWithEffects.1.1.1 in
  let n' := Sample.builtWithEffects.1.1.2 in
  let this' := Sample.builtWithEffects.1.2 in
  let header' := Sample.builtWithEffects.2 in
  (extractStructuredHeader (hs_after site) = Some ([], dl, [])
   ∧ Sample.buildWithEffects r s n this site header = inl (s', n', this', header'))
  ∧ ∃ s1 fh s2 fields s4 args paras s5,
      Demo.formatHeader s1 header
        (Demo.parseH1 (headerSourceOf Demo.locate Demo.serialize s header))
      = (fh, s2)
      ∧ Sample.parseDlWithEffects
          (checkNumericMethod s2 (c_type this) (fh_name fh) header) (c_type this) dl
        = (fields, s4)
      ∧ Demo.formatPreamble s4 args = (paras, s5)
      ∧ c_effects this' = c_effects this ++ dl_effects fields
      ∧ c_skipGlobalChecks this' = dl_skipGlobalChecks fields
      ∧ c_skipReturnChecks this' = dl_skipReturnChecks fields
      ∧ ∀ effect,
          worklistGet (s_effectWorklist s') effect
          = worklistGet (s_effectWorklist s5) effect
            ++ replicate (occurrences effect (dl_effects fields)) r.
Proof.
  cbv zeta.
  assert (Hdl : extractStructuredHeader (hs_after (Demo.site "Foo ( _a_ )"))
                = Some ([], Demo.dl, [])) by (vm_compute; reflexivity).
  assert (Hb : Sample.buildWithEffects 0%nat Demo.emptySpec
                 (Demo.abstractOperation "Foo ( _a_ )") Demo.fresh
                 (Demo.site "Foo ( _a_ )") (Demo.h1 "Foo ( _a_ )")
               = inl (Sample.builtWithEffects.1.1.1, Sample.builtWithEffects.1.1.2,
                      Sample.builtWithEffects.1.2, Sample.builtWithEffects.2))
    by (vm_compute; reflexivity).
  split; [by split|].
  exact (structured_header_records_effects Demo.locate Demo.parseH1
           Demo.TypeParser_parse Demo.offsetToLineAndColumn Demo.formatHeader
           Sample.parseDlWithEffects Demo.formatPreamble Demo.serialize
           Demo.parseFragment 0%nat Demo.emptySpec
           (Demo.abstractOperation "Foo ( _a_ )") Demo.fresh
           (Demo.site "Foo ( _a_ )") (Demo.h1 "Foo ( _a_ )") [] Demo.dl []
           _ _ _ _ Hdl Hb).
Defined.


(** A parameter list with parentheses of its own. *)
Lemma stripParameterList_cuts_the_parentheses_witness :
  let pre := "Evaluation " in
  let mid := " _a_, (_b_) " in
  let post := " <ins>new</ins>" in
  (JS.includes pre "(" = false ∧ JS.includes post ")" = false)
  ∧ stripParameterList (pre +:+ "(" +:+ mid +:+ ")" +:+ post)
    = JS.trim (pre +:+ post).
Proof.
  cbv zeta. split; [split; vm_compute; reflexivity|].
  apply (stripParameterList_cuts_the_parentheses "Evaluation " " _a_, (_b_) "
           " <ins>new</ins>"); vm_compute; reflexivity.
Defined.

(** [Foo ( _a_] has no closing parenthesis and becomes [Foo Foo ( _a_]. *)
Lemma stripParameterList_without_closing_parenthesis_witness :
  let pre := "Foo " in
  let rest := " _a_" in
  (JS.includes pre "(" = false ∧ JS.includes (pre +:+ "(" +:+ rest) ")" = false)
  ∧ stripParameterList (pre +:+ "(" +:+ rest)
    = JS.trim (pre +:+ pre +:+ "(" +:+ rest).
Proof.
  cbv zeta. split; [split; vm_compute; reflexivity|].
  apply (stripParameterList_without_closing_parenthesis "Foo " " _a_");
    vm_compute; reflexivity.
Defined.

